(** * crun: the [update] and [spec] commands, and the test helper [init]

    A shallow embedding of [src/update.c], [src/spec.c] and of
    [tests/init.c] (the argument checks of [main], the commands [cat],
    [ls] and [pause], and the [check-feature seccomp-listener] probe),
    with the properties of the resource-document codec proved over it.

    Conventions.
    - A C [int], [long] or [unsigned long] is a [Z]; conversions between
      them are written out.
    - A [const char *] is an [option string]: [None] is the NULL pointer.
    - A fixed-size C array is a list of that size, read with stdpp's
      lookup and written with stdpp's insert.
    - A function that may end the process ([error (EXIT_FAILURE, ...)])
      or dereference NULL returns an [outcome]. *)

From Stdlib Require Import ZArith String Ascii List Lia Bool.
From stdpp Require Import base option list strings gmap.
From stdpp Require Import sorting.

Local Open Scope Z_scope.

(** ** Outcomes of C functions that may not return *)

Inductive outcome (A : Type) : Type :=
| Ret (a : A)
| Exit (status : Z)
| Fault.

Arguments Ret {A} a.
Arguments Exit {A} status.
Arguments Fault {A}.

Definition obind {A B : Type} (m : outcome A) (k : A -> outcome B) : outcome B :=
  match m with
  | Ret a => k a
  | Exit s => Exit s
  | Fault => Fault
  end.

Notation "x <-- m ;; k" := (obind m (fun x => k))
  (at level 60, m at next level, right associativity).

(** ** The C library: [strtoul] in base 10, and [unsigned long] to [long]

    The library is not part of the repository; the definitions follow
    ISO C 7.22.1.4 as glibc implements it on LP64 Linux: leading white
    space is skipped, one sign is accepted, the longest run of decimal
    digits is converted, a value above [ULONG_MAX] gives [ULONG_MAX] with
    [errno = ERANGE], a leading minus negates the result in the unsigned
    type, and when there is no digit the result is 0 and [errno] is not
    touched (POSIX allows [EINVAL] there, and musl sets it; what follows
    digits is ignored by every C library). The end pointer is not
    modelled: [build_file] passes NULL. *)

Module Libc.

Definition EXIT_FAILURE : Z := 1.
Definition ERANGE : Z := 34.
Definition ULONG_MAX : Z := 2 ^ 64 - 1.
Definition LONG_MAX : Z := 2 ^ 63 - 1.

Definition isspace (c : ascii) : bool :=
  let n := N_of_ascii c in
  ((n =? 32) || ((9 <=? n) && (n <=? 13)))%N.

Definition isdigit (c : ascii) : bool :=
  let n := N_of_ascii c in
  ((48 <=? n) && (n <=? 57))%N.

Definition digit_value (c : ascii) : Z := Z.of_N (N_of_ascii c) - 48.

Fixpoint skip_spaces (s : string) : string :=
  match s with
  | String c r => if isspace c then skip_spaces r else s
  | EmptyString => s
  end.

(** The digits read so far have value [acc]; [n] counts them. *)
Fixpoint scan_digits (s : string) (acc : Z) (n : nat) : Z * nat :=
  match s with
  | String c r =>
      if isdigit c then scan_digits r (10 * acc + digit_value c) (S n)
      else (acc, n)
  | EmptyString => (acc, n)
  end.

Definition take_sign (s : string) : bool * string :=
  match s with
  | String c r =>
      if Ascii.eqb c "-" then (true, r)
      else if Ascii.eqb c "+" then (false, r)
      else (false, s)
  | EmptyString => (false, s)
  end.

(** [strtoul nptr errno] is [strtoul (nptr, NULL, 10)] started with the
    given [errno]: the value returned and [errno] afterwards. *)
Definition strtoul (nptr : string) (errno : Z) : Z * Z :=
  let '(neg, digits) := take_sign (skip_spaces nptr) in
  let '(v, n) := scan_digits digits 0 0 in
  match n with
  | O => (0, errno)
  | S _ =>
      if ULONG_MAX <? v then (ULONG_MAX, ERANGE)
      else if neg then ((2 ^ 64 - v) mod 2 ^ 64, errno)
      else (v, errno)
  end.

(** The conversion [long value = <unsigned long>] (two's complement). *)
Definition long_of_ulong (u : Z) : Z :=
  if u <=? LONG_MAX then u else u - 2 ^ 64.

End Libc.

(** ** The JSON generator

    yajl is a library outside the repository, used as the serialization
    backend; the definitions follow yajl 2.1 ([yajl_gen.c],
    [yajl_encode.c]). The generator handle is modelled by the calls it
    has accepted, in order; the buffer that [yajl_gen_get_buf] returns
    is the text of these tokens. [build_file] sets
    [yajl_gen_validate_utf8] before its first call and does not look at
    what the calls return: [yajl_gen_string] then refuses a string that
    is not valid UTF-8, prints nothing for it and leaves the generator
    as it was, so that the calls that follow take its place. The
    generator's other refusals (a number or a map where a key is
    expected, a call after the document is complete) are not modelled;
    [Tokens] below states the order of calls they ask for. *)

Module Yajl.

Inductive event : Type :=
| MapOpen
| MapClose
| Str (s : string)
| Int (n : Z).

Definition yajl_gen : Type := list event.

(** [yajl_string_validate_utf8], byte by byte; [pending] counts the
    continuation bytes the sequence begun still needs. A string that
    ends inside a sequence is not valid. *)
Fixpoint utf8_scan (pending : nat) (s : string) : bool :=
  match s with
  | EmptyString => (pending =? 0)%nat
  | String c r =>
      let b := N_of_ascii c in
      match pending with
      | S pending' =>
          if (N.shiftr b 6 =? 2)%N then utf8_scan pending' r else false
      | O =>
          if (b <=? 127)%N then utf8_scan 0 r
          else if (N.shiftr b 5 =? 6)%N then utf8_scan 1 r
          else if (N.shiftr b 4 =? 14)%N then utf8_scan 2 r
          else if (N.shiftr b 3 =? 30)%N then utf8_scan 3 r
          else false
      end
  end.

Definition utf8_valid (s : string) : bool := utf8_scan 0 s.

Definition yajl_gen_alloc : yajl_gen := [].
Definition yajl_gen_map_open (g : yajl_gen) : yajl_gen := g ++ [MapOpen].
Definition yajl_gen_map_close (g : yajl_gen) : yajl_gen := g ++ [MapClose].

(** [yajl_gen_string] with [yajl_gen_validate_utf8] set. *)
Definition yajl_gen_string (g : yajl_gen) (s : string) : yajl_gen :=
  if utf8_valid s then g ++ [Str s] else g.

Definition yajl_gen_integer (g : yajl_gen) (n : Z) : yajl_gen := g ++ [Int n].

End Yajl.

(** ** Helpers of crun.c that both commands use *)

Module CrunC.
Import Libc.

(** The part of [struct argp_state] the parser touches. *)
Record argp_state : Type := mk_argp_state {
  state_argv : list string;
  state_next : nat
}.

(** Modelled from the spec: [argp_mandatory_argument] is defined in
    crun.c, which is not among the sources, and command-line parsing is
    an external collaborator of the spec. It hands back the argument argp
    passes and, when there is none, takes the next word of the command
    line. *)
Definition argp_mandatory_argument (arg : option string) (state : argp_state)
  : option string * argp_state :=
  match arg with
  | Some a => (Some a, state)
  | None =>
      (state_argv state !! state_next state,
       mk_argp_state (state_argv state) (S (state_next state)))
  end.

(** Modelled from the spec: [crun_assert_n_args] is defined in crun.c,
    which is not among the sources; it ends the process unless the
    number of remaining arguments lies between the two bounds. *)
Definition crun_assert_n_args (n min max : Z) : outcome unit :=
  if n <? min then Exit EXIT_FAILURE
  else if (max <? n) && (0 <=? max) then Exit EXIT_FAILURE
  else Ret tt.

End CrunC.

(** ** [src/update.c] *)

Module UpdateC.
Import Libc Yajl CrunC.

Definition FIRST_VALUE : Z := 1000.
Definition BLKIO_WEIGHT : Z := FIRST_VALUE.
Definition CPU_PERIOD : Z := 1001.
Definition CPU_QUOTA : Z := 1002.
Definition CPU_SHARE : Z := 1003.
Definition CPU_RT_PERIOD : Z := 1004.
Definition CPU_RT_RUNTIME : Z := 1005.
Definition CPUSET_CPUS : Z := 1006.
Definition CPUSET_MEMS : Z := 1007.
Definition KERNEL_MEMORY : Z := 1008.
Definition KERNEL_MEMORY_TCP : Z := 1009.
Definition MEMORY : Z := 1010.
Definition MEMORY_RESERVATION : Z := 1011.
Definition MEMORY_SWAP : Z := 1012.
Definition PIDS_LIMIT : Z := 1013.
Definition LAST_VALUE : Z := 1014.

Record description_s : Type := mk_description {
  id : Z;
  section : nat;
  key : option string;
  numeric : Z
}.

Definition sections : list string :=
  ["blockIO"; "cpu"; "memory"; "pids"]%string.

Definition descriptors : list description_s :=
  [ mk_description BLKIO_WEIGHT 0 (Some "weight"%string) 1;

    mk_description CPU_PERIOD 1 (Some "period"%string) 1;
    mk_description CPU_QUOTA 1 (Some "quota"%string) 1;
    mk_description CPU_SHARE 1 (Some "share"%string) 1;
    mk_description CPU_RT_PERIOD 1 (Some "realtimePeriod"%string) 1;
    mk_description CPU_RT_RUNTIME 1 (Some "realtimeRuntime"%string) 1;
    mk_description CPUSET_CPUS 1 (Some "cpus"%string) 0;
    mk_description CPUSET_MEMS 1 (Some "mems"%string) 0;

    mk_description KERNEL_MEMORY 2 (Some "kernel"%string) 1;
    mk_description KERNEL_MEMORY_TCP 2 (Some "kernelTCP"%string) 1;
    mk_description MEMORY 2 (Some "limit"%string) 1;
    mk_description MEMORY_RESERVATION 2 (Some "reservation"%string) 1;
    mk_description MEMORY_SWAP 2 (Some "swap"%string) 1;

    mk_description PIDS_LIMIT 3 (Some "limit"%string) 1;
    mk_description 0 0 None 0 ].

(** [LAST_VALUE - FIRST_VALUE], the size of [values]. *)
Definition n_values : nat := Z.to_nat (LAST_VALUE - FIRST_VALUE).

(** [sizeof (sections) / sizeof (sections[0])]. *)
Definition n_sections : nat := length sections.

(** The static array [values], all NULL when the process starts. *)
Abbreviation values_t := (list (option string)).

Definition values_init : values_t := replicate n_values None.

(** [values[i]]: the cell, NULL when it holds no string. *)
Definition values_at (vals : values_t) (i : nat) : option string :=
  match vals !! i with
  | Some v => v
  | None => None
  end.

Definition set_value (id : Z) (value : option string) (vals : values_t) : values_t :=
  <[Z.to_nat (id - FIRST_VALUE) := value]> vals.

(** [has_sections[descriptors[i].section] = 1] when [values[i]] is set. *)
Definition mark_section (vals : values_t) (has : list bool) (i : nat) : list bool :=
  match values_at vals i, descriptors !! i with
  | Some _, Some d => <[section d := true]> has
  | _, _ => has
  end.

(** [for (i = 0; i < n; i++) if (values[i]) has_sections[...] = 1;] *)
Definition mark_sections (vals : values_t) (n : nat) (has : list bool) : list bool :=
  foldl (mark_section vals) has (seq 0 n).

Definition has_section (has : list bool) (i : nat) : bool :=
  match has !! i with
  | Some b => b
  | None => false
  end.

(** The body of the inner loop for a field that is set and belongs to
    the section being written: the key, then the value. *)
Definition emit_field (gen : yajl_gen) (d : description_s) (v : string) : outcome yajl_gen :=
  match key d with
  | None => Fault
  | Some k =>
      let gen := yajl_gen_string gen k in
      if numeric d =? 0 then Ret (yajl_gen_string gen v)
      else
        let '(value, errno) := strtoul v 0 in
        if negb (errno =? 0) then Exit EXIT_FAILURE
        else Ret (yajl_gen_integer gen (long_of_ulong value))
  end.

(** [for (j = 0; j < LAST_VALUE - FIRST_VALUE; j++)] over the indices [js]
    still to visit, for section [i]. *)
Fixpoint fields_loop (js : list nat) (i : nat) (vals : values_t) (gen : yajl_gen)
  : outcome yajl_gen :=
  match js with
  | [] => Ret gen
  | j :: js' =>
      match descriptors !! j with
      | None => Fault
      | Some d =>
          match values_at vals j with
          | None => fields_loop js' i vals gen
          | Some v =>
              if negb (section d =? i)%nat then fields_loop js' i vals gen
              else
                gen' <-- emit_field gen d v ;;
                fields_loop js' i vals gen'
          end
      end
  end.

(** [for (i = 0; i < n_sections; i++)] over the sections [ss] still to
    visit. *)
Fixpoint sections_loop (ss : list nat) (vals : values_t) (has : list bool) (gen : yajl_gen)
  : outcome yajl_gen :=
  match ss with
  | [] => Ret gen
  | i :: ss' =>
      if negb (has_section has i) then sections_loop ss' vals has gen
      else
        match sections !! i with
        | None => Fault
        | Some name =>
            let gen := yajl_gen_string gen name in
            let gen := yajl_gen_map_open gen in
            gen' <-- fields_loop (seq 0 n_values) i vals gen ;;
            sections_loop ss' vals has (yajl_gen_map_close gen')
        end
  end.

(** [build_file], as a function of the array [values]. The generator is
    taken to be allocated (the source exits when [yajl_gen_alloc] gives
    NULL), and the result is what the generator holds when
    [yajl_gen_get_buf] is called. *)
Definition build_file (vals : values_t) : outcome yajl_gen :=
  let has_sections := replicate n_sections false in
  let gen := yajl_gen_alloc in
  let has_sections := mark_sections vals n_values has_sections in
  let has_sections := mark_sections vals n_sections has_sections in
  let gen := yajl_gen_map_open gen in
  gen' <-- sections_loop (seq 0 n_sections) vals has_sections gen ;;
  Ret (yajl_gen_map_close gen').

(** [build_file] with its first step: [allocated] tells whether
    [yajl_gen_alloc] hands out a generator; when it does not, the
    process ends. *)
Definition build_file_alloc (allocated : bool) (vals : values_t) : outcome yajl_gen :=
  if allocated then build_file vals else Exit EXIT_FAILURE.

(** *** Option parsing *)

(** Keys and error codes of glibc's <argp.h>, which [parse_opt] names. *)
Definition KEY_r : Z := 114.
Definition ARGP_KEY_NO_ARGS : Z := 16777218.
Definition ARGP_ERR_UNKNOWN : Z := 7.
Definition EX_USAGE : Z := 64.

(** The file's static variables [resources] and [values]. *)
Record globals : Type := mk_globals {
  resources : option string;
  values : values_t
}.

Definition globals_init : globals := mk_globals None values_init.

(** The fourteen [case] labels that lead to [set_value]. *)
Definition field_keys : list Z :=
  [ BLKIO_WEIGHT; CPU_PERIOD; CPU_QUOTA; CPU_SHARE; CPU_RT_PERIOD;
    CPU_RT_RUNTIME; CPUSET_CPUS; CPUSET_MEMS; KERNEL_MEMORY;
    KERNEL_MEMORY_TCP; MEMORY; MEMORY_RESERVATION; MEMORY_SWAP; PIDS_LIMIT ].

Definition is_field_key (key : Z) : bool := existsb (Z.eqb key) field_keys.

(** [parse_opt]: the error code returned, with the parser state and the
    static variables afterwards. [libcrun_fail_with_error] does not
    return: it ends the process with [EXIT_FAILURE]. *)
Definition parse_opt (key : Z) (arg : option string) (state : argp_state) (g : globals)
  : outcome (Z * argp_state * globals) :=
  if key =? KEY_r then
    let '(a, state') := argp_mandatory_argument arg state in
    Ret (0, state', mk_globals a (values g))
  else if key =? ARGP_KEY_NO_ARGS then Exit EXIT_FAILURE
  else if is_field_key key then
    let '(a, state') := argp_mandatory_argument arg state in
    Ret (0, state', mk_globals (resources g) (set_value key a (values g)))
  else Ret (ARGP_ERR_UNKNOWN, state, g).

(** The keys glibc's argp hands to a parser besides those of its
    options (<argp.h>). *)
Definition ARGP_KEY_ARG : Z := 0.
Definition ARGP_KEY_END : Z := 16777217.
Definition ARGP_KEY_INIT : Z := 16777219.
Definition ARGP_KEY_SUCCESS : Z := 16777220.
Definition ARGP_KEY_ERROR : Z := 16777221.
Definition ARGP_KEY_ARGS : Z := 16777222.
Definition ARGP_KEY_FINI : Z := 16777223.

Definition special_keys : list Z :=
  [ ARGP_KEY_ARG; ARGP_KEY_END; ARGP_KEY_NO_ARGS; ARGP_KEY_INIT;
    ARGP_KEY_SUCCESS; ARGP_KEY_ERROR; ARGP_KEY_ARGS; ARGP_KEY_FINI ].

Definition is_special_key (key : Z) : bool := existsb (Z.eqb key) special_keys.

(** glibc's [argp_parse] ([argp-parse.c]), which is outside the
    repository, by what it does with this parser. [calls] is what the
    command line amounts to, as (key, argument) pairs in command-line
    order ([ARGP_IN_ORDER]).
    - A special key is handed to [parse_opt], and [ARGP_ERR_UNKNOWN] as
      its answer is not an error; for [ARGP_KEY_ARG] and [ARGP_KEY_ARGS]
      it ends the parsing, the words that remain being left to the
      caller. Any other error ends the parsing too, and
      [crun_command_update] does not look at what [argp_parse] returns.
    - A key of [options] ([r] and the fourteen of the fields) is handed
      to [parse_opt]; when the parser does not know it, argp reports a
      program error and ends the process with [EX_USAGE].
    - Any other key stands for a word that names no option: getopt
      refuses it and argp ends the process with [EX_USAGE], and
      [parse_opt] is not called.
    The options argp adds of its own ([--help], [--usage]) go to argp's
    own parser and end the process with status 0; they are not among
    [calls]. *)
Fixpoint argp_parse (calls : list (Z * option string)) (state : argp_state) (g : globals)
  : outcome globals :=
  match calls with
  | [] => Ret g
  | (key, arg) :: rest =>
      if is_special_key key then
        r <-- parse_opt key arg state g ;;
        let '(err, state', g') := r in
        if err =? 0 then argp_parse rest state' g'
        else if (err =? ARGP_ERR_UNKNOWN)
                && negb ((key =? ARGP_KEY_ARG) || (key =? ARGP_KEY_ARGS))
        then argp_parse rest state' g'
        else Ret g'
      else if is_field_key key || (key =? KEY_r) then
        r <-- parse_opt key arg state g ;;
        let '(err, state', g') := r in
        if err =? 0 then argp_parse rest state' g' else Exit EX_USAGE
      else Exit EX_USAGE
  end.

(** *** The command *)

(** What an invocation did with libcrun: nothing past a failed context
    initialisation, or one of the two update entry points, with the
    value it returned. *)
Inductive update_run : Type :=
| InitFailed (ret : Z)
| UpdatedFromContent (id : string) (content : yajl_gen) (ret : Z)
| UpdatedFromFile (id : string) (file : string) (ret : Z).

Definition return_value (r : update_run) : Z :=
  match r with
  | InitFailed ret => ret
  | UpdatedFromContent _ _ ret => ret
  | UpdatedFromFile _ _ ret => ret
  end.

Section Command.

(** libcrun, which is not among the sources: the three entry points the
    command calls, by the value each returns. *)
Variable init_libcrun_context : string -> Z.
Variable libcrun_container_update : string -> yajl_gen -> Z.
Variable libcrun_container_update_from_file : string -> string -> Z.

(** [argv] is the command's argument vector, [calls] what the option
    layer delivers from it and [first_arg] the index argp stores of the
    first word that is not an option. *)
Definition crun_command_update
  (argv : list string) (calls : list (Z * option string)) (first_arg : nat)
  : outcome update_run :=
  g <-- argp_parse calls (mk_argp_state argv 1) globals_init ;;
  _ <-- crun_assert_n_args (Z.of_nat (length argv) - Z.of_nat first_arg) 1 1 ;;
  match argv !! first_arg with
  | None => Fault
  | Some container =>
      let ret := init_libcrun_context container in
      if ret <? 0 then Ret (InitFailed ret)
      else
        match resources g with
        | None =>
            content <-- build_file (values g) ;;
            Ret (UpdatedFromContent container content
                   (libcrun_container_update container content))
        | Some file =>
            Ret (UpdatedFromFile container file
                   (libcrun_container_update_from_file container file))
        end
  end.

End Command.

End UpdateC.

Import Libc Yajl CrunC UpdateC.

(** ** The canonical document

    What serialization is to produce, written as a value after the
    words of the spec (section 4.1): only the sections and fields that
    are set, the sections in the order of [sections], the members of
    each in the order of [descriptors], numbers as numbers and cpuset
    lists as strings. [build_file] is compared with it below. *)

Module Canonical.

Inductive jvalue : Type :=
| JNum (n : Z)
| JStr (s : string).

Definition jmember : Type := (string * jvalue)%type.
Definition jsection : Type := (string * list jmember)%type.
Definition jdoc : Type := list jsection.

Definition value_event (v : jvalue) : event :=
  match v with
  | JNum n => Int n
  | JStr s => Str s
  end.

Definition member_events (m : jmember) : list event := [Str m.1; value_event m.2].

Definition section_events (s : jsection) : list event :=
  Str s.1 :: MapOpen :: flat_map member_events s.2 ++ [MapClose].

Definition doc_events (d : jdoc) : list event :=
  MapOpen :: flat_map section_events d ++ [MapClose].

(** The descriptor table proper, without the terminating zero entry. *)
Definition fields : list description_s := take n_values descriptors.

Definition field_name (d : description_s) : string := default EmptyString (key d).

(** The fields that hold a value, in declared order, each with its
    string. *)
Definition set_fields (vals : values_t) : list (description_s * string) :=
  omap (fun p : description_s * option string =>
          match p.2 with
          | Some v => Some (p.1, v)
          | None => None
          end) (zip fields vals).

(** A numeric field is a number, a cpuset field the string as given.
    The number is the one [strtoul] reads, as a [long]; how it relates
    to the digits of the string is a separate matter. *)
Definition field_json (d : description_s) (v : string) : jvalue :=
  if numeric d =? 0 then JStr v
  else JNum (long_of_ulong (strtoul v 0).1).

Definition member_of (p : description_s * string) : jmember :=
  (field_name p.1, field_json p.1 p.2).

Definition in_section (i : nat) (p : description_s * string) : bool :=
  (section p.1 =? i)%nat.

Definition members (vals : values_t) (i : nat) : list jmember :=
  member_of <$> List.filter (in_section i) (set_fields vals).

Definition section_doc (vals : values_t) (i : nat) : option jsection :=
  match members vals i, sections !! i with
  | (_ :: _) as ms, Some name => Some (name, ms)
  | _, _ => None
  end.

Definition canonical (vals : values_t) : jdoc :=
  omap (section_doc vals) (seq 0 n_sections).

(** What the generator keeps of a sequence of calls: every call but the
    strings it refuses. *)
Definition accepted_call (e : event) : bool :=
  match e with
  | Str s => utf8_valid s
  | _ => true
  end.

Definition written (evs : list event) : list event := List.filter accepted_call evs.

(** The string of every cpuset field that is set is valid UTF-8. *)
Definition strings_valid (vals : values_t) : bool :=
  forallb (fun p : description_s * string =>
             negb (numeric p.1 =? 0) || utf8_valid p.2)
    (set_fields vals).

(** [strtoul] reports an error for the value of a numeric field. *)
Definition out_of_range (p : description_s * string) : bool :=
  negb (numeric p.1 =? 0) && negb ((strtoul p.2 0).2 =? 0).

Definition overflows (vals : values_t) : bool :=
  existsb out_of_range (set_fields vals).

End Canonical.

Import Canonical.

(** ** Reading a value string as an unsigned decimal number *)

Module Decimal.

Fixpoint all_digits (s : string) : bool :=
  match s with
  | EmptyString => true
  | String c r => isdigit c && all_digits r
  end.

(** A valid unsigned base-10 integer: one decimal digit or more, and
    nothing else. *)
Definition is_unsigned_decimal (s : string) : bool :=
  match s with
  | EmptyString => false
  | String _ _ => all_digits s
  end.

(** The number the digits denote, most significant digit first. *)
Fixpoint decimal_value (s : string) : Z :=
  match s with
  | EmptyString => 0
  | String c r => digit_value c * 10 ^ Z.of_nat (String.length r) + decimal_value r
  end.

End Decimal.

Import Decimal.

(** ** The resource document and its parser *)

Module Codec.

(** Modelled from the spec: the ResourceDocument of section 3, a sparse
    set of optional fields in four sections. The code that holds and
    parses documents is libcrun's and is not among the sources. A field
    is named by its section and key; a numeric field holds an unsigned
    integer, a cpuset field a free-form string; an absent key is an
    unset field, which is not the same as zero. *)
Inductive field_value : Type :=
| VNum (n : N)
| VStr (s : string).

Abbreviation Document := (gmap (string * string) field_value).

Definition section_name (d : description_s) : string :=
  default EmptyString (sections !! section d).

(** The descriptor of a (section, key) pair, if the table has one. *)
Definition descriptor_for (sec key : string) : option description_s :=
  List.find (fun d => String.eqb (section_name d) sec && String.eqb (field_name d) key)
    fields.

(** Modelled from the spec: one field of [parseFromOptions] (section
    4.1). A cpuset value is kept as given; a numeric value must parse as
    an unsigned base-10 integer that the machine's [unsigned long] can
    hold, otherwise the result is a ValidationError ([None]). *)
Definition option_value (d : description_s) (raw : string) : option field_value :=
  if numeric d =? 0 then Some (VStr raw)
  else if is_unsigned_decimal raw && (decimal_value raw <=? ULONG_MAX)
       then Some (VNum (Z.to_N (decimal_value raw)))
       else None.

(** Modelled from the spec: [parseFromOptions], from the raw values the
    option layer stored to a Document or a ValidationError ([None]). *)
Definition document_of_options (vals : values_t) : option Document :=
  foldr (fun (p : description_s * string) (acc : option Document) =>
           match acc, option_value p.1 p.2 with
           | Some doc, Some v => Some (<[(section_name p.1, field_name p.1) := v]> doc)
           | _, _ => None
           end)
        (Some ∅) (set_fields vals).

(** Modelled from the spec: [parseFromFile] on the canonical update
    document of section 6, read token by token: a top-level map whose
    keys are section names, each with a map from field keys to values,
    numbers for numeric fields and strings for cpuset fields. Anything
    else is a ParseError. *)
Inductive parse_state : Type :=
| AtStart
| InDocument
| SectionNamed (sec : string)
| InSection (sec : string)
| AtValue (sec key : string) (is_numeric : bool)
| AtEnd
| Failed.

Definition parse_step (st : parse_state * Document) (e : event)
  : parse_state * Document :=
  let '(s, doc) := st in
  match s, e with
  | AtStart, MapOpen => (InDocument, doc)
  | InDocument, Str sec =>
      if existsb (String.eqb sec) sections then (SectionNamed sec, doc)
      else (Failed, doc)
  | InDocument, MapClose => (AtEnd, doc)
  | SectionNamed sec, MapOpen => (InSection sec, doc)
  | InSection sec, Str key =>
      match descriptor_for sec key with
      | Some d => (AtValue sec key (negb (numeric d =? 0)), doc)
      | None => (Failed, doc)
      end
  | InSection sec, MapClose => (InDocument, doc)
  | AtValue sec key true, Int n =>
      if 0 <=? n then (InSection sec, <[(sec, key) := VNum (Z.to_N n)]> doc)
      else (Failed, doc)
  | AtValue sec key false, Str v => (InSection sec, <[(sec, key) := VStr v]> doc)
  | _, _ => (Failed, doc)
  end.

Definition parse (content : list event) : option Document :=
  match foldl parse_step (AtStart, ∅) content with
  | (AtEnd, doc) => Some doc
  | _ => None
  end.

End Codec.

Import Codec.

(** ** The reconciliation engine *)

Module Engine.

(** Modelled from the spec: the ControllerWrite, CgroupTarget and Result
    of sections 3 and 6. libcrun, which holds them, is not among the
    sources. *)
Record ControllerWrite : Type := mk_write {
  write_path : string;
  write_value : string
}.

Inductive CgroupTarget : Type :=
| TargetV1 (controller_path : string -> string)
| TargetV2 (path : string).

Inductive Result : Type :=
| Success
| ContainerNotFound
| Unsupported (field : string * string)
| PartialUpdate (succeeded : list ControllerWrite) (failed : ControllerWrite)
    (errno : Z) (not_attempted : list ControllerWrite).

(** Modelled from the spec: the order in which the engine applies
    fields (section 4.3): blockIO, cpu, cpuset, memory, pids, with the
    memory limit before the reservation. *)
Definition engine_order : list (string * string) :=
  [ ("blockIO", "weight");
    ("cpu", "period"); ("cpu", "quota"); ("cpu", "share");
    ("cpu", "realtimePeriod"); ("cpu", "realtimeRuntime");
    ("cpu", "cpus"); ("cpu", "mems");
    ("memory", "limit"); ("memory", "reservation"); ("memory", "swap");
    ("memory", "kernel"); ("memory", "kernelTCP");
    ("pids", "limit") ]%string.

Section Backend.

(** The backend chosen at start-up, by the writes it makes of one field
    that is set: it sees the whole document, since cgroup v2 combines
    quota and period into one write, and answers [None] for a field it
    rejects as unsupported. The spec names no controller file, so none
    is fixed here. *)
Variable backend_writes :
  CgroupTarget -> Document -> string * string -> field_value -> option (list ControllerWrite).

(** What the kernel answers to one write: [None], or the errno. *)
Variable apply : ControllerWrite -> option Z.

(** Which cgroup a container id resolves to, if it still exists. *)
Variable resolve : string -> option CgroupTarget.

(** Modelled from the spec: [plan (Document, CgroupTarget)] of section
    4.2, the writes of the fields that are set, in engine order; the
    first unsupported field stops it. *)
Fixpoint plan_fields (fs : list (string * string)) (doc : Document) (t : CgroupTarget)
  : (string * string) + list ControllerWrite :=
  match fs with
  | [] => inr []
  | f :: fs' =>
      match doc !! f with
      | None => plan_fields fs' doc t
      | Some v =>
          match backend_writes t doc f v with
          | None => inl f
          | Some ws =>
              match plan_fields fs' doc t with
              | inl bad => inl bad
              | inr rest => inr (ws ++ rest)
              end
          end
      end
  end.

Definition plan (doc : Document) (t : CgroupTarget)
  : (string * string) + list ControllerWrite :=
  plan_fields engine_order doc t.

(** Modelled from the spec: applying a plan, section 4.3: writes go in
    order, the first failure stops the run and is reported with what
    succeeded before it and what was never attempted. *)
Fixpoint apply_plan (succeeded : list ControllerWrite) (ws : list ControllerWrite)
  : Result :=
  match ws with
  | [] => Success
  | w :: rest =>
      match apply w with
      | None => apply_plan (succeeded ++ [w]) rest
      | Some errno => PartialUpdate succeeded w errno rest
      end
  end.

(** Modelled from the spec: [update (containerId, Document)] of section
    4.3. *)
Definition update (container : string) (doc : Document) : Result :=
  match resolve container with
  | None => ContainerNotFound
  | Some t =>
      match plan doc t with
      | inl field => Unsupported field
      | inr ws => apply_plan [] ws
      end
  end.

(** Modelled from the spec: the value [libcrun_container_update]
    returns for a serialized document: 0 for success, negative for a
    parse error and for every other result. *)
Definition libcrun_container_update (container : string) (content : yajl_gen) : Z :=
  match parse content with
  | None => -1
  | Some doc =>
      match update container doc with
      | Success => 0
      | _ => -1
      end
  end.

End Backend.

End Engine.

(** ** What a command line supplies

    Every option of [options] takes an argument ("VALUE", "FILE"), so
    the option layer hands [parse_opt] each option with its argument. *)

Module OptionLayer.

Definition deliver (opts : list (Z * string)) : list (Z * option string) :=
  (fun o : Z * string => (o.1, Some o.2)) <$> opts.

(** The arguments given for [key], in command-line order. *)
Definition supplied (key : Z) (opts : list (Z * string)) : list string :=
  omap (fun o : Z * string => if o.1 =? key then Some o.2 else None) opts.

(** A key of [options]: one of the fourteen fields, or [r]. *)
Definition is_option_key (key : Z) : bool := is_field_key key || (key =? KEY_r).

End OptionLayer.

Import OptionLayer.

(** ** Proof-side views of the loops of [build_file] *)

Module Loops.

(** The inner loop of [build_file] once each descriptor is paired with
    the cell of [values] it indexes. *)
Fixpoint fields_run (ps : list (description_s * option string)) (i : nat) (gen : yajl_gen)
  : outcome yajl_gen :=
  match ps with
  | [] => Ret gen
  | (d, ov) :: ps' =>
      match ov with
      | None => fields_run ps' i gen
      | Some v =>
          if negb (section d =? i)%nat then fields_run ps' i gen
          else
            gen' <-- emit_field gen d v ;;
            fields_run ps' i gen'
      end
  end.

Definition set_of (ps : list (description_s * option string))
  : list (description_s * string) :=
  omap (fun p : description_s * option string =>
          match p.2 with
          | Some v => Some (p.1, v)
          | None => None
          end) ps.

Definition set_in (i : nat) (p : description_s * option string) : bool :=
  match p.2 with
  | Some _ => (section p.1 =? i)%nat
  | None => false
  end.

Definition bad_in (i : nat) (p : description_s * string) : bool :=
  in_section i p && out_of_range p.

End Loops.

Import Loops.

(** ** Proof-side views of the parser *)

Module RoundTrip.

Definition value_of_json (v : jvalue) : field_value :=
  match v with
  | JNum n => VNum (Z.to_N n)
  | JStr s => VStr s
  end.

(** A field of a document with its value. *)
Abbreviation entry := ((string * string) * field_value)%type.

Definition section_entries (s : jsection) : list entry :=
  (fun m : jmember => ((s.1, m.1), value_of_json m.2)) <$> s.2.

Definition entries (doc : jdoc) : list entry := flat_map section_entries doc.

Definition insert_all (doc : Document) (l : list entry) : Document :=
  foldl (fun (m : Document) (e : entry) => <[e.1 := e.2]> m) doc l.

(** A member the parser accepts inside the section [sec]. *)
Definition member_ok (sec : string) (m : jmember) : Prop :=
  exists d : description_s,
    descriptor_for sec m.1 = Some d
    /\ match m.2 with
       | JNum n => numeric d <> 0 /\ 0 <= n
       | JStr _ => numeric d = 0
       end.

Definition section_ok (s : jsection) : Prop :=
  existsb (String.eqb s.1) sections = true /\ Forall (member_ok s.1) s.2.

Definition key_of (d : description_s) : string * string :=
  (section_name d, field_name d).

(** The entry [build_file] writes for a field, and the entry the
    Document built from the options holds for it. *)
Definition entry_of (p : description_s * string) : entry :=
  (key_of p.1, value_of_json (field_json p.1 p.2)).

Definition option_entry (p : description_s * string) : entry :=
  (key_of p.1, default (VStr EmptyString) (option_value p.1 p.2)).

(** The value of a numeric field fits [long]. *)
Definition fits_long (p : description_s * string) : Prop :=
  numeric p.1 <> 0 -> decimal_value p.2 <= LONG_MAX.

End RoundTrip.

Import RoundTrip.

(** ** [src/spec.c] *)

Module SpecC.

(** The files of the current directory, by name, each with its text. *)
Definition filesystem : Type := gmap string string.

Definition config_json : string := "config.json".

(** Modelled from the spec: [crun_make_error] is defined in
    libcrun/error.c, which is not among the sources; it records the
    error and returns the negative value [-status - 1]. *)
Definition crun_make_error (status : Z) : Z := - status - 1.

(** The variable [FILE *f]: NULL, an open stream, or a stream that
    [fclose] has been called on. *)
Inductive file_state : Type :=
| FileNull
| FileOpen
| FileClosed.

(** [fclose]: using a stream after it is closed is undefined (glibc
    frees the stream twice and aborts). *)
Definition fclose (f : file_state) : outcome file_state :=
  match f with
  | FileOpen => Ret FileClosed
  | FileClosed => Fault
  | FileNull => Fault
  end.

(** Modelled from the spec: [cleanup_file] is defined in
    libcrun/utils.h, which is not among the sources; it is the cleanup
    attribute that calls [fclose] on the variable, unless it is NULL,
    when the function is left. *)
Definition cleanup_file (f : file_state) : outcome unit :=
  match f with
  | FileNull => Ret tt
  | _ => _ <-- fclose f ;; Ret tt
  end.

(** What [argp_parse] does: it returns, with the index of the first
    word that is no option, or it ends the process. *)
Inductive argp_answer : Type :=
| ArgpReturns (first_arg : nat)
| ArgpExits (status : Z).

Section Spec.

(** libcrun and the C library, by what they answer: whether the path
    exists, given the [readonly] flag (negative: the check itself
    failed), whether [fopen (path, "w+")] succeeds, and the text
    [libcrun_container_spec] writes with the value it returns. The
    value of [init_libcrun_context] is not looked at. *)
Variable crun_path_exists : filesystem -> string -> Z -> Z.
Variable fopen_succeeds : filesystem -> string -> bool.
Variable libcrun_container_spec : Z -> string * Z.

(** [return ret;] with [f] in the state given: the cleanup runs, then
    the value is returned. *)
Definition leave (f : file_state) (ret : Z) : outcome Z :=
  _ <-- cleanup_file f ;; Ret ret.

(** [argp] is what glibc's [argp_parse] does with the command line, the
    table of the command having no option and [parse_opt] knowing no
    key: it ends the process ([--help] with 0, a word that looks like
    an option with [EX_USAGE]), or returns with the index of the first
    argument stored in [first_arg]. The result is the files afterwards
    and how the call ended. *)
Definition crun_command_spec (argp : argp_answer) (argc : nat) (euid : Z) (fs : filesystem)
  : filesystem * outcome Z :=
  let f := FileNull in
  match argp with
  | ArgpExits status => (fs, Exit status)
  | ArgpReturns first_arg =>
      match crun_assert_n_args (Z.of_nat argc - Z.of_nat first_arg) 0 0 with
      | Exit status => (fs, Exit status)
      | Fault => (fs, Fault)
      | Ret _ =>
          let ret := crun_path_exists fs config_json 0 in
          if ret <? 0 then (fs, leave f ret)
          else if negb (ret =? 0) then (fs, leave f (crun_make_error 0))
          else if negb (fopen_succeeds fs config_json)
          then (fs, leave f (crun_make_error 0))
          else
            let f := FileOpen in
            let fs := <[config_json := EmptyString]> fs in
            let '(text, ret) := libcrun_container_spec euid in
            let fs := <[config_json := text]> fs in
            (fs, f <-- fclose f ;; leave f (if 0 <=? ret then 0 else ret))
      end
  end.

End Spec.

(** Modelled from the spec: [crun_path_exists] is defined in
    libcrun/utils.c, which is not among the sources. This instance
    answers 1 for a path that exists and 0 for one that does not; the
    properties below ask only that an existing path is never answered
    with 0. *)
Definition path_exists_by_lookup (fs : filesystem) (path : string) (readonly : Z) : Z :=
  match fs !! path with
  | Some _ => 1
  | None => 0
  end.

End SpecC.

(** ** [tests/init.c]: [check-feature seccomp-listener] *)

Module InitC.

Definition EINTR : Z := 4.
Definition SECCOMP_SET_MODE_FILTER : Z := 1.
Definition SECCOMP_FILTER_FLAG_NEW_LISTENER : Z := Z.shiftl 1 3.
Definition SECCOMP_RET_ALLOW : Z := 2147418112.
Definition BPF_RET_K : Z := 6.

(** [const char bpf[]], byte by byte. *)
Definition bpf : list Z := [6; 0; 0; 0; 0; 0; 255; 127].

(** A [struct sock_filter] read from eight bytes on a little-endian
    machine: [code] (16 bits), [jt], [jf] (8 bits each), [k] (32 bits). *)
Record sock_filter : Type := mk_sock_filter {
  code : Z;
  jt : Z;
  jf : Z;
  k : Z
}.

Definition le16 (b0 b1 : Z) : Z := Z.lor b0 (Z.shiftl b1 8).

Definition le32 (b0 b1 b2 b3 : Z) : Z :=
  Z.lor (Z.lor b0 (Z.shiftl b1 8)) (Z.lor (Z.shiftl b2 16) (Z.shiftl b3 24)).

Definition read_sock_filter (bytes : list Z) : option sock_filter :=
  match bytes with
  | [c0; c1; t; f; k0; k1; k2; k3] =>
      Some (mk_sock_filter (le16 c0 c1) t f (le32 k0 k1 k2 k3))
  | _ => None
  end.

(** The system calls the child makes, in order. *)
Inductive syscall : Type :=
| SysPrctlNoNewPrivs
| SysSeccomp (operation flags : Z) (len : Z) (filter : list Z).

(** What the system answers during one run of the probe. A system call
    that fails returns [-1]; [seccomp] with the listener flag returns
    the new descriptor when it succeeds. [waitpid] is interrupted
    [wait_interrupts] times, then fails with [wait_error] or reports how
    the child ended: killed by the signal [child_killed], or exited. *)
Record os : Type := mk_os {
  have_seccomp : bool;
  fork_ret : Z;
  prctl_ret : Z;
  seccomp_ret : Z;
  wait_interrupts : nat;
  wait_error : option Z;
  child_killed : option Z
}.

(** <sys/wait.h>. *)
Definition WIFEXITED (status : Z) : bool := Z.land status 127 =? 0.
Definition WEXITSTATUS (status : Z) : Z := Z.shiftr (Z.land status 65280) 8.

(** The [else] branch: the child, with the calls it made and the value
    [main] returns. *)
Definition child_main (o : os) : list syscall * Z :=
  let seccomp_filter_len := 1 in
  let seccomp_filter_filter := bpf in
  if prctl_ret o <? 0 then ([SysPrctlNoNewPrivs], 1)
  else
    let trace :=
      [SysPrctlNoNewPrivs;
       SysSeccomp SECCOMP_SET_MODE_FILTER SECCOMP_FILTER_FLAG_NEW_LISTENER
         seccomp_filter_len seccomp_filter_filter] in
    let ret := seccomp_ret o in
    if ret <=? 0 then (trace, 1) else (trace, 0).

(** The status [waitpid] stores for the child: the low byte of its exit
    code in bits 8 to 15, or the number of the signal that killed it. *)
Definition child_status (o : os) : Z :=
  match child_killed o with
  | Some sig => Z.land sig 127
  | None => Z.shiftl (Z.land (child_main o).2 255) 8
  end.

(** The successive answers of [waitpid (p, &status, 0)]: the value
    returned, [errno] and the status stored. *)
Definition waitpid_answers (o : os) : list (Z * Z * Z) :=
  replicate (wait_interrupts o) (-1, EINTR, 0)
  ++ [match wait_error o with
      | Some e => (-1, e, 0)
      | None => (fork_ret o, 0, child_status o)
      end].

(** [do ret = waitpid (...); while (ret < 0 && errno == EINTR);] *)
Fixpoint wait_loop (answers : list (Z * Z * Z)) : option (Z * Z) :=
  match answers with
  | [] => None
  | (ret, errno, status) :: rest =>
      if (ret <? 0) && (errno =? EINTR) then wait_loop rest
      else Some (ret, status)
  end.

(** The [seccomp-listener] branch of [main] in the process that called
    [fork]: the value [main] returns, which is the exit status. *)
Definition check_feature_seccomp_listener (o : os) : outcome Z :=
  if have_seccomp o then
    let p := fork_ret o in
    if p <? 0 then Ret 1
    else if negb (p =? 0) then
      match wait_loop (waitpid_answers o) with
      | None => Fault
      | Some (ret, status) =>
          if (ret =? p) && WIFEXITED status && (WEXITSTATUS status =? 0)
          then Ret 0
          else Ret 1
      end
    else Ret (child_main o).2
  else Ret 1.

(** What the record can hold when it describes the process that called
    [fork]: there [fork] does not return 0; the last answer of [waitpid]
    is not one more [EINTR]; a signal has a number from 1 to 127. *)
Definition well_formed (o : os) : Prop :=
  fork_ret o <> 0
  /\ wait_error o <> Some EINTR
  /\ (forall sig : Z, child_killed o = Some sig -> 0 < sig < 128).

(** The probe's exit status in closed form. *)
Definition probe_passes (o : os) : bool :=
  have_seccomp o && (0 <? fork_ret o) && (0 <=? prctl_ret o) && (0 <? seccomp_ret o)
  && bool_decide (wait_error o = None) && bool_decide (child_killed o = None).

(** The install the probe attempts went through: the probe was built
    with seccomp, the child exists, it set no-new-privileges, and the
    [seccomp] call did not fail. *)
Definition listener_install_succeeds (o : os) : Prop :=
  have_seccomp o = true /\ 0 < fork_ret o /\ 0 <= prctl_ret o /\ 0 <= seccomp_ret o.

End InitC.

(** ** [src/update.c]: the option table

    [static struct argp_option options[]], entry by entry, with the
    terminating zero entry. An entry whose [arg] is set and whose
    [flags] are 0 is an option with a mandatory argument. *)

Module UpdateOptions.

Record argp_option : Type := mk_argp_option {
  name : option string;
  key : Z;
  arg : option string;
  flags : Z;
  doc : option string;
  group : Z
}.

Definition options : list argp_option :=
  [ mk_argp_option (Some "resources") KEY_r (Some "FILE") 0
      (Some "path to the file containing the resources to update") 0;
    mk_argp_option (Some "blkio-weight") BLKIO_WEIGHT (Some "VALUE") 0
      (Some "Specifies per cgroup weight") 0;
    mk_argp_option (Some "cpu-period") CPU_PERIOD (Some "VALUE") 0
      (Some "CPU CFS period to be used for hardcapping") 0;
    mk_argp_option (Some "cpu-quota") CPU_QUOTA (Some "VALUE") 0
      (Some "CPU CFS hardcap limit") 0;
    mk_argp_option (Some "cpu-share") CPU_SHARE (Some "VALUE") 0
      (Some "CPU shares") 0;
    mk_argp_option (Some "cpu-rt-period") CPU_RT_PERIOD (Some "VALUE") 0
      (Some "CPU realtime period to be used for hardcapping") 0;
    mk_argp_option (Some "cpu-rt-runtime") CPU_RT_RUNTIME (Some "VALUE") 0
      (Some "CPU realtime hardcap limit") 0;
    mk_argp_option (Some "cpuset-cpus") CPUSET_CPUS (Some "VALUE") 0
      (Some "CPU(s) to use") 0;
    mk_argp_option (Some "cpuset-mems") CPUSET_MEMS (Some "VALUE") 0
      (Some "Memory node(s) to use") 0;
    mk_argp_option (Some "kernel-memory") KERNEL_MEMORY (Some "VALUE") 0
      (Some "Kernel memory limit") 0;
    mk_argp_option (Some "kernel-memory-tcp") KERNEL_MEMORY_TCP (Some "VALUE") 0
      (Some "Kernel memory limit for tcp buffer") 0;
    mk_argp_option (Some "memory") MEMORY (Some "VALUE") 0
      (Some "Memory limit") 0;
    mk_argp_option (Some "memory-reservation") MEMORY_RESERVATION (Some "VALUE") 0
      (Some "Memory reservation or soft_limit") 0;
    mk_argp_option (Some "memory-swap") MEMORY_SWAP (Some "VALUE") 0
      (Some "Total memory usage") 0;
    mk_argp_option (Some "pids-limit") PIDS_LIMIT (Some "VALUE") 0
      (Some "Maximum number of pids allowed in the container") 0;
    mk_argp_option None 0 None 0 None 0 ]%string.

(** The entries argp reads: those before the first one without a name
    and without a key. *)
Fixpoint declared (table : list argp_option) : list argp_option :=
  match table with
  | [] => []
  | o :: rest =>
      match name o with
      | None => if key o =? 0 then [] else o :: declared rest
      | Some _ => o :: declared rest
      end
  end.

End UpdateOptions.

(** ** Token sequences a JSON generator accepts

    The order of calls that makes a document: a value is a string, a
    number or a map; inside a map each value follows a key, which is a
    string; nothing follows the value that completes the document.
    [build_file] does not look at what the generator's calls return, so
    that it only makes calls in this order is a property of its loops. *)

Module Tokens.

(** What an open map waits for. *)
Inductive frame : Type :=
| ExpectKey
| ExpectValue.

(** The open maps, innermost first, and whether the document is
    complete. *)
Record gen_state : Type := mk_gen_state {
  open_maps : list frame;
  complete : bool
}.

Definition gen_start : gen_state := mk_gen_state [] false.

(** A value has just been finished below the maps [stack]. *)
Definition after_value (stack : list frame) : option gen_state :=
  match stack with
  | [] => Some (mk_gen_state [] true)
  | ExpectValue :: rest => Some (mk_gen_state (ExpectKey :: rest) false)
  | ExpectKey :: _ => None
  end.

(** One call; [None] is the generator's error state. *)
Definition accept (st : option gen_state) (e : event) : option gen_state :=
  match st with
  | None => None
  | Some s =>
      if complete s then None
      else
        match open_maps s, e with
        | ExpectKey :: rest, Str _ => Some (mk_gen_state (ExpectValue :: rest) false)
        | ExpectKey :: rest, MapClose => after_value rest
        | ExpectKey :: _, _ => None
        | stack, MapOpen => Some (mk_gen_state (ExpectKey :: stack) false)
        | stack, Str _ => after_value stack
        | stack, Int _ => after_value stack
        | _, MapClose => None
        end
  end.

Definition accepted (evs : list event) : bool :=
  match foldl accept (Some gen_start) evs with
  | Some (mk_gen_state [] true) => true
  | _ => false
  end.

End Tokens.

(** ** [tests/init.c]: [main] and the commands [cat], [ls] and [pause] *)

Module InitMain.
Import InitC.

(** *** The chain of [strcmp] of [main]

    What [main] goes on to do once the command word and the number of
    arguments are checked. [argv] is the whole vector, [argv !! 0] the
    program name; the vector ends with a NULL pointer, so [argv[argc]]
    is NULL. *)

Inductive feature : Type :=
| OpenTree
| MoveMount
| SeccompListener.

Inductive action : Type :=
| RunTrue
| RunEcho (text : string)
| RunPrintenv (name : string)
| RunGroups
| RunCat (file : string)
| RunOpen (file : string)
| RunAccess (file : string)
| RunCwd
| RunGethostname
| RunIsatty (fd : string)
| RunWrite (path : string) (str : option string)
| RunPause
| RunForkbomb (n : string)
| RunLs (path : string)
| RunSdNotify
| RunCheckFeature (f : feature).

(** [if (argc < 3) error (EXIT_FAILURE, 0, ...)], then the use of
    [argv[2]]. *)
Definition with_argument (argv : list string) (k : string -> action) : outcome action :=
  match argv !! 2%nat with
  | None => Exit Libc.EXIT_FAILURE
  | Some a => Ret (k a)
  end.

Definition main_dispatch (argv : list string) : outcome action :=
  match argv !! 1%nat with
  | None => Exit Libc.EXIT_FAILURE
  | Some cmd =>
      if String.eqb cmd "true" then Ret RunTrue
      else if String.eqb cmd "echo" then with_argument argv RunEcho
      else if String.eqb cmd "printenv" then with_argument argv RunPrintenv
      else if String.eqb cmd "groups" then Ret RunGroups
      else if String.eqb cmd "cat" then with_argument argv RunCat
      else if String.eqb cmd "open" then with_argument argv RunOpen
      else if String.eqb cmd "access" then with_argument argv RunAccess
      else if String.eqb cmd "cwd" then Ret RunCwd
      else if String.eqb cmd "gethostname" then Ret RunGethostname
      else if String.eqb cmd "isatty" then with_argument argv RunIsatty
      else if String.eqb cmd "write" then
        with_argument argv (fun path => RunWrite path (argv !! 3%nat))
      else if String.eqb cmd "pause" then Ret RunPause
      else if String.eqb cmd "forkbomb" then with_argument argv RunForkbomb
      else if String.eqb cmd "ls" then with_argument argv RunLs
      else if String.eqb cmd "systemd-notify" then Ret RunSdNotify
      else if String.eqb cmd "check-feature" then
        match argv !! 2%nat with
        | None => Exit Libc.EXIT_FAILURE
        | Some f =>
            if String.eqb f "open_tree" then Ret (RunCheckFeature OpenTree)
            else if String.eqb f "move_mount" then Ret (RunCheckFeature MoveMount)
            else if String.eqb f "seccomp-listener" then Ret (RunCheckFeature SeccompListener)
            else Exit Libc.EXIT_FAILURE
        end
      else Exit Libc.EXIT_FAILURE
  end.

(** The command words [main] compares with, and those among them that
    are followed by the check [argc < 3]. *)
Definition commands : list string :=
  [ "true"; "echo"; "printenv"; "groups"; "cat"; "open"; "access"; "cwd";
    "gethostname"; "isatty"; "write"; "pause"; "forkbomb"; "ls";
    "systemd-notify"; "check-feature" ]%string.

Definition commands_with_argument : list string :=
  [ "echo"; "printenv"; "cat"; "open"; "access"; "isatty"; "write";
    "forkbomb"; "ls"; "check-feature" ]%string.

Definition features : list string :=
  [ "open_tree"; "move_mount"; "seccomp-listener" ]%string.

(** *** [cat]

    A file opened for reading hands out its bytes and then reports the
    end of the file, or an error when [read_error] is set; [fread] fills
    the buffer as far as there are bytes. The standard output is a
    buffered stream: [fwrite n buf] is the number of bytes of [buf] the
    stream accepts at the [n]-th call, and what it has accepted reaches
    the descriptor when the C library flushes, at the latest when the
    process exits; [cat] neither flushes nor looks at the stream again.
    The result of [cat] is the bytes the stream accepted and how [cat]
    ended; [None] when the steps allowed are used up. *)

Record stream : Type := mk_stream {
  bytes : list ascii;
  read_error : bool
}.

Definition BUFSIZE : nat := 512.

Fixpoint cat_loop (steps : nat) (data : list ascii) (read_error : bool)
  (fwrite : nat -> list ascii -> nat) (n : nat) (out : list ascii)
  : option (list ascii * outcome Z) :=
  match steps with
  | O => None
  | S steps' =>
      let buf := take BUFSIZE data in
      let s := length buf in
      if (s =? 0)%nat then
        if negb read_error then Some (out, Ret 0)
        else Some (out, Exit Libc.EXIT_FAILURE)
      else
        let s := fwrite n buf in
        let out := out ++ take s buf in
        if (s =? 0)%nat then Some (out, Exit Libc.EXIT_FAILURE)
        else cat_loop steps' (drop BUFSIZE data) read_error fwrite (S n) out
  end.

Definition cat (steps : nat) (fopen : string -> option stream)
  (fwrite : nat -> list ascii -> nat) (file : string)
  : option (list ascii * outcome Z) :=
  match fopen file with
  | None => Some ([], Exit Libc.EXIT_FAILURE)
  | Some f => cat_loop steps (bytes f) (read_error f) fwrite 0 []
  end.

(** The [cat] command as a process: [flush accepted] is what the C
    library gets written to the descriptor of the bytes the stream
    accepted, during the run and when the process exits. The result is
    the bytes that reached the descriptor and how the process ended. *)
Definition cat_command (steps : nat) (fopen : string -> option stream)
  (fwrite : nat -> list ascii -> nat) (flush : list ascii -> list ascii) (file : string)
  : option (list ascii * outcome Z) :=
  match cat steps fopen fwrite file with
  | None => None
  | Some (accepted, ended) => Some (flush accepted, ended)
  end.

(** *** [ls]

    An open directory hands out its names, and then [readdir] reports
    the end, or fails when [readdir_error] is set. The result is the
    lines printed and how [ls] ended. *)

Record dir_stream : Type := mk_dir_stream {
  names : list string;
  readdir_error : bool
}.

Fixpoint ls_loop (entries : list string) (readdir_error : bool) (out : list string)
  : list string * outcome Z :=
  match entries with
  | [] => if readdir_error then (out, Exit Libc.EXIT_FAILURE) else (out, Ret 0)
  | d_name :: rest => ls_loop rest readdir_error (out ++ [d_name ++ String "010" EmptyString])
  end%string.

Definition ls (opendir : string -> option dir_stream) (path : string)
  : list string * outcome Z :=
  match opendir path with
  | None => ([], Exit Libc.EXIT_FAILURE)
  | Some dir => ls_loop (names dir) (readdir_error dir) []
  end.

(** What the system answers to the process that runs the [ls] command:
    the value of [fork], and for [waitpid] the number of interruptions,
    then a failure or the way the child ended. *)
Record ls_os : Type := mk_ls_os {
  ls_fork_ret : Z;
  ls_wait_interrupts : nat;
  ls_wait_error : option Z;
  ls_child_killed : option Z
}.

(** The status a process leaves that returns [ret] from [main] or calls
    [exit (ret)]: the low eight bits. *)
Definition exit_status (ret : Z) : Z := Z.land ret 255.

(** The status [waitpid] stores for a child that ended as [child]. *)
Definition wait_status (killed : option Z) (child : outcome Z) : option Z :=
  match killed, child with
  | Some sig, _ => Some (Z.land sig 127)
  | None, Ret r => Some (Z.shiftl (exit_status r) 8)
  | None, Exit s => Some (Z.shiftl (exit_status s) 8)
  | None, Fault => None
  end.

(** The [ls] branch of [main]: the value [main] returns in the process
    that called [fork], or what the child does when [fork] answers 0. *)
Definition ls_command (o : ls_os) (opendir : string -> option dir_stream) (path : string)
  : outcome Z :=
  let pid := ls_fork_ret o in
  if pid <? 0 then Exit Libc.EXIT_FAILURE
  else if negb (pid =? 0) then
    match wait_status (ls_child_killed o) (ls opendir path).2 with
    | None => Fault
    | Some child =>
        let answers :=
          replicate (ls_wait_interrupts o) (-1, EINTR, 0)
          ++ [match ls_wait_error o with
              | Some e => (-1, e, 0)
              | None => (pid, 0, child)
              end] in
        match wait_loop answers with
        | None => Fault
        | Some (ret, status) => if ret <? 0 then Ret ret else Ret status
        end
    end
  else (ls opendir path).2.

(** *** [pause]

    [sleep n seconds] is what the [n]-th call of [sleep (seconds)]
    returns: the seconds left when a signal cut it short, and 0 when it
    slept them all. The result is the number of calls made and the
    seconds slept in all, after which the command calls [exit (0)];
    [None] when the steps allowed are used up. *)

Fixpoint pause_loop (steps : nat) (sleep : nat -> Z -> Z) (n : nat) (remaining : Z)
  (slept : Z) : option (nat * Z) :=
  match steps with
  | O => None
  | S steps' =>
      if remaining =? 0 then Some (n, slept)
      else
        let left := sleep n remaining in
        pause_loop steps' sleep (S n) left (slept + (remaining - left))
  end.

Definition pause (steps : nat) (sleep : nat -> Z -> Z) : option (nat * Z) :=
  let remaining := 120 in
  pause_loop steps sleep 0 remaining 0.

End InitMain.

(** ** Proof-side views of the table order and of list membership *)

Module TableOrder.

(** Two fields that are set, ordered by the index of their sections. *)
Definition by_section (p q : description_s * string) : Prop :=
  (section p.1 <= section q.1)%nat.

End TableOrder.

Import TableOrder.

Ltac in_list :=
  solve [apply list_elem_of_In; cbn; repeat first [left; reflexivity | right]].

Ltac not_in_list H :=
  solve [apply list_elem_of_In in H; cbn in H; intuition congruence].

(** * Facts *)

Lemma fields_length : length fields = n_values.
Proof. reflexivity. Qed.

Lemma fields_wf : Forall (fun d => (section d < n_sections)%nat /\ is_Some (key d)) fields.
Proof. repeat constructor; vm_compute; eauto. Qed.

Lemma fields_lookup_descriptors (k : nat) (d : description_s) :
  fields !! k = Some d -> descriptors !! k = Some d.
Proof. unfold fields. rewrite lookup_take_Some. tauto. Qed.

Lemma zip_fields_length (vals : values_t) :
  length vals = n_values -> length (zip fields vals) = n_values.
Proof. intros H. rewrite length_zip_with, fields_length, H. lia. Qed.

Lemma zip_fields_lookup (vals : values_t) (k : nat) :
  length vals = n_values -> (k < n_values)%nat ->
  exists d ov, descriptors !! k = Some d /\ vals !! k = Some ov
               /\ zip fields vals !! k = Some (d, ov).
Proof.
  intros Hlen Hk.
  destruct (lookup_lt_is_Some_2 fields k) as [d Hd]; [rewrite fields_length; lia|].
  destruct (lookup_lt_is_Some_2 vals k) as [ov Hov]; [lia|].
  exists d, ov. split; [by apply fields_lookup_descriptors|]. split; [done|].
  by apply lookup_zip_Some.
Qed.

Lemma fields_loop_run (vals : values_t) (i : nat) :
  length vals = n_values ->
  forall (n k : nat) (gen : yajl_gen),
    (k + n <= n_values)%nat ->
    fields_loop (seq k n) i vals gen
    = fields_run (take n (drop k (zip fields vals))) i gen.
Proof.
  intros Hlen. induction n as [|n IH]; intros k gen Hk.
  - by rewrite take_0.
  - destruct (zip_fields_lookup vals k Hlen) as (d & ov & Hd & Hov & Hz); [lia|].
    rewrite (drop_S _ _ _ Hz). cbn [seq take fields_loop fields_run].
    rewrite Hd. unfold values_at. rewrite Hov.
    destruct ov as [v|]; [|apply IH; lia].
    destruct (negb (section d =? i)%nat); [apply IH; lia|].
    destruct (emit_field gen d v); cbn; [apply IH; lia|done..].
Qed.

Lemma written_app (evs1 evs2 : list event) :
  written (evs1 ++ evs2) = written evs1 ++ written evs2.
Proof. apply List.filter_app. Qed.

Lemma yajl_gen_string_written (gen : yajl_gen) (s : string) :
  yajl_gen_string gen s = gen ++ written [Str s].
Proof.
  unfold yajl_gen_string, written. cbn [List.filter accepted_call].
  destruct (utf8_valid s); [reflexivity|by rewrite app_nil_r].
Qed.

Lemma emit_field_written (gen : yajl_gen) (d : description_s) (v k : string) :
  key d = Some k ->
  emit_field gen d v
  = if out_of_range (d, v) then Exit EXIT_FAILURE
    else Ret (gen ++ written (member_events (member_of (d, v)))).
Proof.
  intros Hkey.
  unfold emit_field, out_of_range, member_of, member_events, field_name, field_json.
  cbn [fst snd]. rewrite Hkey.
  change (default EmptyString (Some k)) with k.
  destruct (numeric d =? 0); cbn [negb andb value_event].
  - rewrite !yajl_gen_string_written, <- app_assoc, <- written_app. reflexivity.
  - destruct (strtoul v 0) as [value errno]. cbn [fst snd].
    destruct (errno =? 0); cbn [negb]; [|reflexivity].
    rewrite yajl_gen_string_written. unfold yajl_gen_integer.
    rewrite <- app_assoc.
    change [Str k; Int (long_of_ulong value)]
      with ([Str k] ++ [Int (long_of_ulong value)]).
    rewrite written_app. reflexivity.
Qed.

Lemma fields_run_spec (i : nat) (ps : list (description_s * option string)) :
  Forall (fun p => is_Some (key p.1)) ps ->
  forall gen : yajl_gen,
    fields_run ps i gen
    = if existsb (bad_in i) (set_of ps) then Exit EXIT_FAILURE
      else Ret (gen ++ written (flat_map member_events
                                  (member_of <$> List.filter (in_section i) (set_of ps)))).
Proof.
  induction 1 as [|[d ov] ps [k Hkey] _ IH]; intros gen.
  - cbn. by rewrite app_nil_r.
  - destruct ov as [v|]; cbn [fields_run set_of omap list_omap fst snd]; [|apply IH].
    fold (set_of ps). cbn [existsb List.filter].
    unfold bad_in at 1.
    change (in_section i (d, v)) with (section d =? i)%nat. cbn [fst snd] in *.
    destruct (section d =? i)%nat; cbn [negb andb orb]; [|apply IH].
    rewrite (emit_field_written gen d v k Hkey).
    destruct (out_of_range (d, v)); cbn [obind orb]; [reflexivity|].
    rewrite IH. destruct (existsb _ _); [reflexivity|].
    cbn [fmap list_fmap flat_map]. rewrite written_app, <- app_assoc. reflexivity.
Qed.

Lemma existsb_filter_nil {A : Type} (f : A -> bool) (l : list A) :
  existsb f l = false -> List.filter f l = [].
Proof.
  induction l as [|x l IH]; cbn; [done|].
  destruct (f x); cbn; [done|exact IH].
Qed.

Lemma existsb_filter_cons {A : Type} (f : A -> bool) (l : list A) :
  existsb f l = true -> exists x l', List.filter f l = x :: l'.
Proof.
  induction l as [|x l IH]; cbn; [done|].
  destruct (f x); cbn; eauto.
Qed.

Lemma existsb_take {A : Type} (f : A -> bool) (n : nat) (l : list A) :
  existsb f (take n l) = true -> existsb f l = true.
Proof.
  intros H. rewrite <- (take_drop n l), existsb_app, H. done.
Qed.

Lemma existsb_set_of (i : nat) (ps : list (description_s * option string)) :
  existsb (in_section i) (set_of ps) = existsb (set_in i) ps.
Proof.
  induction ps as [|[d ov] ps IH]; [done|].
  destruct ov as [v|]; cbn; fold (set_of ps); by rewrite IH.
Qed.

Lemma mark_sections_S (vals : values_t) (n : nat) (has : list bool) :
  mark_sections vals (S n) has = mark_section vals (mark_sections vals n has) n.
Proof. unfold mark_sections. by rewrite seq_S, foldl_snoc. Qed.

Lemma mark_sections_length (vals : values_t) (n : nat) (has : list bool) :
  length (mark_sections vals n has) = length has.
Proof.
  induction n as [|n IH]; [done|].
  rewrite mark_sections_S. unfold mark_section.
  destruct (values_at vals n), (descriptors !! n);
    by rewrite ?length_insert.
Qed.

Lemma has_section_insert (has : list bool) (s i : nat) :
  (i < length has)%nat ->
  has_section (<[s := true]> has) i = (s =? i)%nat || has_section has i.
Proof.
  intros Hi. unfold has_section. destruct (Nat.eqb_spec s i) as [->|Hne].
  - by rewrite list_lookup_insert_eq.
  - by rewrite list_lookup_insert_ne.
Qed.

Lemma mark_sections_spec (vals : values_t) (has : list bool) (i : nat) :
  length vals = n_values -> (i < length has)%nat ->
  forall n : nat, (n <= n_values)%nat ->
    has_section (mark_sections vals n has) i
    = has_section has i || existsb (set_in i) (take n (zip fields vals)).
Proof.
  intros Hlen Hi. induction n as [|n IH]; intros Hn.
  - cbn. by rewrite orb_false_r.
  - destruct (zip_fields_lookup vals n Hlen) as (d & ov & Hd & Hov & Hz); [lia|].
    rewrite (take_S_r _ _ _ Hz), existsb_app. cbn [existsb].
    rewrite mark_sections_S.
    unfold mark_section, values_at. rewrite Hov, Hd.
    unfold set_in at 2. cbn [fst snd].
    destruct ov as [v|].
    + rewrite has_section_insert.
      * rewrite IH by lia. destruct (section d =? i)%nat, (has_section has i),
          (existsb (set_in i) (take n (zip fields vals))); done.
      * by rewrite (mark_sections_length vals n has).
    + rewrite IH by lia. by rewrite !orb_false_r.
Qed.

(** After the two marking loops a section is flagged exactly when one of
    its fields holds a value. *)
Lemma has_sections_spec (vals : values_t) (i : nat) :
  length vals = n_values -> (i < n_sections)%nat ->
  has_section
    (mark_sections vals n_sections
       (mark_sections vals n_values (replicate n_sections false))) i
  = existsb (in_section i) (set_fields vals).
Proof.
  intros Hlen Hi.
  rewrite mark_sections_spec; [|done| |vm_compute; lia].
  2:{ by rewrite mark_sections_length, length_replicate. }
  rewrite mark_sections_spec; [|done| |done].
  2:{ by rewrite length_replicate. }
  unfold has_section at 1. rewrite lookup_replicate_2 by done. cbn [orb].
  rewrite firstn_all2 by (rewrite zip_fields_length; done).
  change (set_fields vals) with (set_of (zip fields vals)).
  rewrite existsb_set_of.
  destruct (existsb (set_in i) (take n_sections (zip fields vals))) eqn:E.
  - apply existsb_take in E. by rewrite E.
  - by rewrite orb_false_r.
Qed.

Lemma zip_fields_keys (vals : values_t) :
  Forall (fun p : description_s * option string => is_Some (key p.1)) (zip fields vals).
Proof.
  apply Forall_forall. intros [d ov] Hin. cbn.
  apply elem_of_zip_l in Hin.
  pose proof fields_wf as Hwf. rewrite Forall_forall in Hwf.
  by destruct (Hwf d Hin).
Qed.

Lemma set_fields_section (vals : values_t) (p : description_s * string) :
  p ∈ set_fields vals -> (section p.1 < n_sections)%nat.
Proof.
  unfold set_fields. rewrite list_elem_of_omap. intros ([d ov] & Hin & Heq).
  cbn in Heq. destruct ov; [|done]. injection Heq as <-. cbn.
  apply elem_of_zip_l in Hin.
  pose proof fields_wf as Hwf. rewrite Forall_forall in Hwf.
  by destruct (Hwf d Hin).
Qed.

Lemma fields_loop_spec (vals : values_t) (i : nat) (gen : yajl_gen) :
  length vals = n_values ->
  fields_loop (seq 0 n_values) i vals gen
  = if existsb (bad_in i) (set_fields vals) then Exit EXIT_FAILURE
    else Ret (gen ++ written (flat_map member_events (members vals i))).
Proof.
  intros Hlen. rewrite fields_loop_run by (done || lia).
  rewrite drop_0, firstn_all2 by (rewrite zip_fields_length; done).
  by rewrite fields_run_spec by apply zip_fields_keys.
Qed.

Lemma section_doc_some (vals : values_t) (i : nat) (name : string) :
  sections !! i = Some name ->
  existsb (in_section i) (set_fields vals) = true ->
  section_doc vals i = Some (name, members vals i).
Proof.
  intros Hname E. destruct (existsb_filter_cons _ _ E) as (x & l' & Hf).
  unfold section_doc, members. by rewrite Hname, Hf.
Qed.

Lemma section_doc_none (vals : values_t) (i : nat) :
  existsb (in_section i) (set_fields vals) = false ->
  section_doc vals i = None.
Proof.
  intros E. unfold section_doc, members. by rewrite (existsb_filter_nil _ _ E).
Qed.

Lemma bad_in_none (vals : values_t) (i : nat) :
  existsb (in_section i) (set_fields vals) = false ->
  existsb (bad_in i) (set_fields vals) = false.
Proof.
  intros E. apply not_true_is_false. intros Hb.
  apply existsb_exists in Hb as (p & Hin & Hp).
  unfold bad_in in Hp. apply andb_true_iff in Hp as [Hp _].
  assert (existsb (in_section i) (set_fields vals) = true) as E'
    by (apply existsb_exists; exists p; split; assumption).
  congruence.
Qed.

Lemma section_events_app (gen rest : list event) (name : string) (ms : list jmember) :
  yajl_gen_map_close
    (yajl_gen_map_open (yajl_gen_string gen name) ++ written (flat_map member_events ms))
  ++ rest
  = gen ++ written (section_events (name, ms)) ++ rest.
Proof.
  rewrite yajl_gen_string_written.
  unfold yajl_gen_map_close, yajl_gen_map_open, section_events. cbn [fst snd].
  change (Str name :: MapOpen :: flat_map member_events ms ++ [MapClose])
    with ([Str name] ++ [MapOpen] ++ flat_map member_events ms ++ [MapClose]).
  rewrite !written_app.
  change (written [MapOpen]) with [MapOpen].
  change (written [MapClose]) with [MapClose].
  rewrite <- !app_assoc. reflexivity.
Qed.

Lemma sections_loop_spec (vals : values_t) (has : list bool) :
  length vals = n_values ->
  (forall i, (i < n_sections)%nat ->
     has_section has i = existsb (in_section i) (set_fields vals)) ->
  forall (ss : list nat) (gen : yajl_gen),
    Forall (fun i => (i < n_sections)%nat) ss ->
    sections_loop ss vals has gen
    = if existsb (fun i => existsb (bad_in i) (set_fields vals)) ss
      then Exit EXIT_FAILURE
      else Ret (gen ++ written (flat_map section_events (omap (section_doc vals) ss))).
Proof.
  intros Hlen Hhas ss gen Hss. revert gen.
  induction Hss as [|i ss Hi _ IH]; intros gen.
  - cbn. by rewrite app_nil_r.
  - cbn [sections_loop existsb omap list_omap]. rewrite (Hhas i Hi).
    destruct (existsb (in_section i) (set_fields vals)) eqn:E; cbn [negb].
    + destruct (lookup_lt_is_Some_2 sections i Hi) as [name Hname].
      rewrite (section_doc_some vals i name Hname E).
      rewrite Hname, fields_loop_spec by done.
      destruct (existsb (bad_in i) (set_fields vals)); [done|].
      cbn [obind orb]. rewrite IH.
      destruct (existsb _ ss); [done|].
      cbn [flat_map]. by rewrite written_app, section_events_app.
    + rewrite (section_doc_none vals i E), (bad_in_none vals i E).
      cbn [orb]. apply IH.
Qed.

Lemma overflows_by_section (vals : values_t) :
  existsb (fun i => existsb (bad_in i) (set_fields vals)) (seq 0 n_sections)
  = overflows vals.
Proof.
  unfold overflows. apply eq_true_iff_eq. rewrite !existsb_exists. split.
  - intros (i & _ & Hi). apply existsb_exists in Hi as (p & Hin & Hp).
    unfold bad_in in Hp. apply andb_true_iff in Hp as [_ Hp]. eauto.
  - intros (p & Hin & Hp). exists (section p.1). split.
    + apply in_seq. apply list_elem_of_In, set_fields_section in Hin. lia.
    + apply existsb_exists. exists p. split; [done|].
      unfold bad_in, in_section. by rewrite Nat.eqb_refl, Hp.
Qed.

(** [build_file] ends the process exactly when [strtoul] reports an
    error for a numeric field that is set, and otherwise the generator
    holds the canonical document of the values without the strings it
    refused. It never dereferences NULL. *)
Lemma build_file_written (vals : values_t) :
  length vals = n_values ->
  build_file vals
  = if overflows vals then Exit EXIT_FAILURE
    else Ret (written (doc_events (canonical vals))).
Proof.
  intros Hlen. unfold build_file.
  rewrite (sections_loop_spec vals _ Hlen).
  - rewrite overflows_by_section. destruct (overflows vals); [done|].
    cbn [obind]. unfold doc_events, canonical, yajl_gen_map_close,
      yajl_gen_map_open, yajl_gen_alloc.
    change (MapOpen :: flat_map section_events (omap (section_doc vals) (seq 0 n_sections))
            ++ [MapClose])
      with ([MapOpen] ++ flat_map section_events (omap (section_doc vals) (seq 0 n_sections))
            ++ [MapClose]).
    rewrite !written_app.
    change (written [MapOpen]) with [MapOpen].
    change (written [MapClose]) with [MapClose].
    by rewrite <- app_assoc.
  - intros i Hi. by apply has_sections_spec.
  - apply Forall_forall. intros i Hi. apply elem_of_seq in Hi. lia.
Qed.

(** ** Reading the canonical document *)

Lemma set_fields_elem (vals : values_t) (d : description_s) (v : string) :
  (d, v) ∈ set_fields vals
  <-> exists j : nat, fields !! j = Some d /\ vals !! j = Some (Some v).
Proof.
  unfold set_fields. rewrite list_elem_of_omap. split.
  - intros ([d' ov] & Hin & Heq). cbn in Heq. destruct ov as [v'|]; [|done].
    injection Heq as -> ->. apply list_elem_of_lookup in Hin as [j Hj].
    apply lookup_zip_Some in Hj. eauto.
  - intros (j & Hd & Hv). exists (d, Some v). split; [|done].
    apply list_elem_of_lookup. exists j. by apply lookup_zip_Some.
Qed.


Lemma section_doc_inv (vals : values_t) (i : nat) (name : string) (ms : list jmember) :
  section_doc vals i = Some (name, ms) ->
  sections !! i = Some name /\ ms = members vals i
  /\ existsb (in_section i) (set_fields vals) = true.
Proof.
  destruct (existsb (in_section i) (set_fields vals)) eqn:E.
  - intros H. unfold section_doc in H.
    destruct (members vals i) eqn:Hm; [done|].
    destruct (sections !! i); [|done]. by injection H as -> <-.
  - by rewrite (section_doc_none vals i E).
Qed.

Lemma canonical_elem (vals : values_t) (name : string) (ms : list jmember) :
  (name, ms) ∈ canonical vals
  <-> exists i : nat, sections !! i = Some name /\ ms = members vals i
                      /\ existsb (in_section i) (set_fields vals) = true.
Proof.
  unfold canonical. rewrite list_elem_of_omap. split.
  - intros (i & _ & H). exists i. by apply section_doc_inv.
  - intros (i & Hname & -> & E). exists i. split.
    + apply elem_of_seq. apply lookup_lt_Some in Hname. unfold n_sections. lia.
    + by apply section_doc_some.
Qed.




Lemma field_key_index (key : Z) :
  is_field_key key = true -> FIRST_VALUE <= key < LAST_VALUE.
Proof.
  unfold is_field_key, field_keys. cbn [existsb].
  rewrite !orb_true_iff, !Z.eqb_eq. unfold FIRST_VALUE, LAST_VALUE.
  intros H. repeat destruct H as [H|H]; try discriminate; subst; vm_compute; split; congruence.
Qed.


(** ** When the generator refuses nothing *)

Lemma written_all (evs : list event) :
  (forall e : event, In e evs -> accepted_call e = true) -> written evs = evs.
Proof.
  induction evs as [|e evs IH]; intros H; [reflexivity|].
  unfold written. cbn [List.filter]. rewrite (H e) by (left; reflexivity).
  f_equal. apply IH. intros e' He'. apply H. right. exact He'.
Qed.

Lemma table_strings_valid :
  Forall (fun name => utf8_valid name = true) sections
  /\ Forall (fun d => utf8_valid (field_name d) = true) fields.
Proof.
  split.
  - apply Forall_forall. intros name Hin. apply list_elem_of_In in Hin.
    assert (H : forallb utf8_valid sections = true) by (vm_compute; reflexivity).
    rewrite forallb_forall in H. exact (H name Hin).
  - apply Forall_forall. intros d Hin. apply list_elem_of_In in Hin.
    assert (H : forallb (fun d => utf8_valid (field_name d)) fields = true)
      by (vm_compute; reflexivity).
    rewrite forallb_forall in H. exact (H d Hin).
Qed.

Lemma member_accepted (vals : values_t) (p : description_s * string) (e : event) :
  strings_valid vals = true ->
  p ∈ set_fields vals ->
  In e (member_events (member_of p)) ->
  accepted_call e = true.
Proof.
  intros Hvalid Hp He. destruct p as [d v].
  unfold strings_valid in Hvalid. rewrite forallb_forall in Hvalid.
  specialize (Hvalid (d, v) (proj1 (list_elem_of_In _ _) Hp)). cbn [fst snd] in Hvalid.
  apply set_fields_elem in Hp as (j & Hd & _).
  destruct table_strings_valid as [_ Hfields]. rewrite Forall_forall in Hfields.
  specialize (Hfields d (list_elem_of_lookup_2 _ _ _ Hd)).
  unfold member_events, member_of, field_json in He. cbn [fst snd] in He.
  destruct He as [<-|[<-|[]]]; [exact Hfields|].
  destruct (numeric d =? 0); cbn [negb orb value_event accepted_call] in *;
    [exact Hvalid|reflexivity].
Qed.

Lemma written_canonical (vals : values_t) :
  strings_valid vals = true ->
  written (doc_events (canonical vals)) = doc_events (canonical vals).
Proof.
  intros Hvalid. apply written_all. intros e He.
  unfold doc_events in He. destruct He as [<-|He]; [reflexivity|].
  apply in_app_iff in He as [He|[<-|[]]]; [|reflexivity].
  apply in_flat_map in He as ([name ms] & Hsec & He).
  apply list_elem_of_In, canonical_elem in Hsec as (i & Hname & -> & _).
  unfold section_events in He. cbn [fst snd] in He.
  destruct He as [<-|[<-|He]]; [|reflexivity|].
  - destruct table_strings_valid as [Hsections _]. rewrite Forall_forall in Hsections.
    exact (Hsections name (list_elem_of_lookup_2 _ _ _ Hname)).
  - apply in_app_iff in He as [He|[<-|[]]]; [|reflexivity].
    apply in_flat_map in He as (m & Hm & He).
    unfold members in Hm. apply list_elem_of_In, list_elem_of_fmap in Hm as (p & -> & Hp).
    apply list_elem_of_In, filter_In in Hp as [Hp _].
    apply (member_accepted vals p e Hvalid); [apply list_elem_of_In; exact Hp|exact He].
Qed.

(** [build_file] computes the canonical document of the values when the
    strings of the cpuset fields are valid UTF-8, and ends the process
    exactly when [strtoul] reports an error for a numeric field that is
    set. *)
Lemma build_file_spec (vals : values_t) :
  length vals = n_values ->
  strings_valid vals = true ->
  build_file vals
  = if overflows vals then Exit EXIT_FAILURE
    else Ret (doc_events (canonical vals)).
Proof.
  intros Hlen Hvalid. rewrite (build_file_written vals Hlen).
  by rewrite (written_canonical vals Hvalid).
Qed.




(** ** [strtoul] on unsigned decimal strings *)

Lemma isdigit_plain (c : ascii) :
  isdigit c = true ->
  isspace c = false /\ Ascii.eqb c "-" = false /\ Ascii.eqb c "+" = false
  /\ 0 <= digit_value c <= 9.
Proof.
  destruct c as [[] [] [] [] [] [] [] []]; vm_compute; intuition congruence.
Qed.

Lemma decimal_value_nonneg (s : string) :
  all_digits s = true -> 0 <= decimal_value s.
Proof.
  induction s as [|c r IH]; cbn [all_digits decimal_value]; [lia|].
  intros H. apply andb_true_iff in H as [Hc Hr].
  apply isdigit_plain in Hc as (_ & _ & _ & Hc).
  specialize (IH Hr).
  assert (0 <= 10 ^ Z.of_nat (String.length r)) by (apply Z.pow_nonneg; lia).
  nia.
Qed.

Lemma scan_digits_all (s : string) :
  all_digits s = true ->
  forall (acc : Z) (n : nat),
    scan_digits s acc n
    = (acc * 10 ^ Z.of_nat (String.length s) + decimal_value s,
       (n + String.length s)%nat).
Proof.
  induction s as [|c r IH]; intros H acc n.
  - cbn. f_equal; [lia|lia].
  - cbn [all_digits] in H. apply andb_true_iff in H as [Hc Hr].
    cbn [scan_digits String.length decimal_value]. rewrite Hc, (IH Hr).
    f_equal; [|lia].
    rewrite Nat2Z.inj_succ, Z.pow_succ_r by lia. ring.
Qed.

Lemma strtoul_unsigned_decimal (s : string) (errno : Z) :
  is_unsigned_decimal s = true ->
  strtoul s errno
  = if ULONG_MAX <? decimal_value s then (ULONG_MAX, ERANGE)
    else (decimal_value s, errno).
Proof.
  destruct s as [|c r]; [done|]. intros H. cbn [is_unsigned_decimal] in H.
  pose proof H as Hall. cbn [all_digits] in H.
  apply andb_true_iff in H as [Hc _].
  destruct (isdigit_plain c Hc) as (Hsp & Hm & Hp & _).
  unfold strtoul. cbn [skip_spaces]. rewrite Hsp.
  unfold take_sign. rewrite Hm, Hp.
  rewrite (scan_digits_all _ Hall). cbn [String.length Nat.add].
  rewrite Z.mul_0_l, Z.add_0_l. reflexivity.
Qed.

(** A numeric field given as an unsigned decimal that fits [long] is
    written with exactly its value, and does not stop [build_file]. *)
Lemma field_json_exact (d : description_s) (s : string) :
  numeric d <> 0 ->
  is_unsigned_decimal s = true ->
  decimal_value s <= LONG_MAX ->
  field_json d s = JNum (decimal_value s) /\ out_of_range (d, s) = false.
Proof.
  intros Hn Hs Hv. unfold field_json, out_of_range. cbn [fst snd].
  apply Z.eqb_neq in Hn. rewrite Hn, strtoul_unsigned_decimal by done.
  assert ((ULONG_MAX <? decimal_value s) = false) as ->
    by (apply Z.ltb_ge; unfold ULONG_MAX, LONG_MAX in *; lia).
  cbn [fst snd negb andb Z.eqb]. split; [|done].
  unfold long_of_ulong. apply Z.leb_le in Hv. by rewrite Hv.
Qed.

(** A numeric field given as an unsigned decimal above [ULONG_MAX] makes
    [strtoul] report [ERANGE]. *)
Lemma out_of_range_above_ulong (d : description_s) (s : string) :
  numeric d <> 0 ->
  is_unsigned_decimal s = true ->
  ULONG_MAX < decimal_value s ->
  out_of_range (d, s) = true.
Proof.
  intros Hn Hs Hv. unfold out_of_range. cbn [fst snd].
  apply Z.eqb_neq in Hn. rewrite Hn, strtoul_unsigned_decimal by done.
  apply Z.ltb_lt in Hv. by rewrite Hv.
Qed.

(** ** The command, given what the option layer stored *)

Lemma crun_command_update_spec
  (init : string -> Z) (upd : string -> yajl_gen -> Z) (updf : string -> string -> Z)
  (argv : list string) (calls : list (Z * option string)) (first_arg : nat)
  (g : globals) (container : string) :
  argp_parse calls (mk_argp_state argv 1) globals_init = Ret g ->
  length argv = S first_arg ->
  argv !! first_arg = Some container ->
  crun_command_update init upd updf argv calls first_arg
  = if init container <? 0 then Ret (InitFailed (init container))
    else match resources g with
         | None =>
             content <-- build_file (values g) ;;
             Ret (UpdatedFromContent container content (upd container content))
         | Some file => Ret (UpdatedFromFile container file (updf container file))
         end.
Proof.
  intros Hparse Hlen Harg. unfold crun_command_update.
  rewrite Hparse. cbn [obind]. unfold crun_assert_n_args.
  replace (Z.of_nat (length argv) - Z.of_nat first_arg) with 1 by lia.
  cbn [Z.ltb Z.compare andb obind]. by rewrite Harg.
Qed.

(** C8, at the value where it fails. The string is an unsigned decimal
    whose value is [ULONG_MAX], representable in [unsigned long];
    [strtoul] accepts it, assigning the result to [long value] wraps it,
    and the number written for memory.limit is -1. *)
Lemma build_file_wraps_large_unsigned :
  is_unsigned_decimal "18446744073709551615" = true
  /\ decimal_value "18446744073709551615" = ULONG_MAX
  /\ build_file (set_value MEMORY (Some "18446744073709551615"%string) values_init)
     = Ret [MapOpen; Str "memory"; MapOpen; Str "limit"; Int (-1); MapClose; MapClose]
  /\ build_file (set_value CPU_PERIOD (Some "9223372036854775808"%string) values_init)
     = Ret [MapOpen; Str "cpu"; MapOpen; Str "period";
            Int (-9223372036854775808); MapClose; MapClose].
Proof. vm_compute. repeat split. Qed.

(** C1, at inputs where it fails. [--memory 12abc] and [--memory abc]
    are not unsigned decimals; [strtoul] reads 12 and 0 and leaves
    [errno] alone, so [build_file] returns and the command goes on to
    [libcrun_container_update] with that limit. *)
Lemma update_accepts_non_digit_value
  (upd : string -> yajl_gen -> Z) (updf : string -> string -> Z) :
  is_unsigned_decimal "abc" = false
  /\ is_unsigned_decimal "12abc" = false
  /\ crun_command_update (fun _ => 0) upd updf
       ["update"; "--memory"; "abc"; "c1"]%string [(MEMORY, Some "abc"%string)] 3
     = Ret (UpdatedFromContent "c1"
              [MapOpen; Str "memory"; MapOpen; Str "limit"; Int 0; MapClose; MapClose]
              (upd "c1"%string
                 [MapOpen; Str "memory"; MapOpen; Str "limit"; Int 0; MapClose; MapClose]))
  /\ crun_command_update (fun _ => 0) upd updf
       ["update"; "--memory"; "12abc"; "c1"]%string [(MEMORY, Some "12abc"%string)] 3
     = Ret (UpdatedFromContent "c1"
              [MapOpen; Str "memory"; MapOpen; Str "limit"; Int 12; MapClose; MapClose]
              (upd "c1"%string
                 [MapOpen; Str "memory"; MapOpen; Str "limit"; Int 12; MapClose; MapClose])).
Proof. repeat split. Qed.

(** The part of C1 that holds: when [strtoul] reports an error for a
    numeric field (a value above [ULONG_MAX]), the process ends inside
    [build_file], before either update entry point of libcrun is
    reached. *)
Lemma update_out_of_range_is_fatal
  (init : string -> Z) (upd : string -> yajl_gen -> Z) (updf : string -> string -> Z)
  (argv : list string) (calls : list (Z * option string)) (first_arg : nat)
  (g : globals) (container : string) :
  argp_parse calls (mk_argp_state argv 1) globals_init = Ret g ->
  length argv = S first_arg ->
  argv !! first_arg = Some container ->
  0 <= init container ->
  resources g = None ->
  length (values g) = n_values ->
  overflows (values g) = true ->
  crun_command_update init upd updf argv calls first_arg = Exit EXIT_FAILURE.
Proof.
  intros Hparse Hlen Harg Hinit Hres Hvals Hov.
  rewrite (crun_command_update_spec _ _ _ _ _ _ g container) by done.
  apply Z.ltb_ge in Hinit. rewrite Hinit, Hres, build_file_written, Hov by done.
  reflexivity.
Qed.

(** ** The descriptor table and the option parser *)

Lemma field_key_cases (key : Z) :
  is_field_key key = true ->
  key = 1000 \/ key = 1001 \/ key = 1002 \/ key = 1003 \/ key = 1004
  \/ key = 1005 \/ key = 1006 \/ key = 1007 \/ key = 1008 \/ key = 1009
  \/ key = 1010 \/ key = 1011 \/ key = 1012 \/ key = 1013.
Proof.
  intros H. pose proof (field_key_index key H) as Hr.
  unfold FIRST_VALUE, LAST_VALUE in Hr. lia.
Qed.

Lemma descriptor_of_key (key : Z) :
  is_field_key key = true ->
  exists d : description_s,
    fields !! Z.to_nat (key - FIRST_VALUE) = Some d /\ id d = key.
Proof.
  intros H. apply field_key_cases in H.
  repeat destruct H as [H|H]; subst key; eexists; split; reflexivity.
Qed.

Lemma descriptor_index_unique (j : nat) (d : description_s) :
  descriptors !! j = Some d ->
  is_field_key (id d) = true ->
  j = Z.to_nat (id d - FIRST_VALUE).
Proof.
  intros Hj Hk.
  do 15 (destruct j as [|j]; [injection Hj as <-; first [reflexivity | discriminate Hk]|]).
  discriminate Hj.
Qed.

(** C7. Every recognised resource key has one descriptor: it sits at
    index [key - FIRST_VALUE] of the table, carries that key as its id,
    names a section and a field key, and no other entry of the table
    carries the same id. A key that is none of the fourteen, nor [r],
    nor [ARGP_KEY_NO_ARGS], is answered with [ARGP_ERR_UNKNOWN] and
    changes nothing. When it is not one of argp's special keys, the
    option layer ends the process with a usage error; a special key so
    answered is not an error, and parsing goes on, or ends for
    [ARGP_KEY_ARG] and [ARGP_KEY_ARGS], with nothing stored. The special
    keys are no option keys; and no key outside the fourteen ever
    changes [values], which is all that [build_file] serializes. *)
Theorem descriptor_table_functional :
  (forall key : Z,
     is_field_key key = true ->
     exists d : description_s,
       descriptors !! Z.to_nat (key - FIRST_VALUE) = Some d
       /\ id d = key
       /\ (section d < n_sections)%nat
       /\ is_Some (UpdateC.key d)
       /\ (forall (j : nat) (d' : description_s),
             descriptors !! j = Some d' -> id d' = key ->
             j = Z.to_nat (key - FIRST_VALUE) /\ d' = d))
  /\ (forall (key : Z) (arg : option string) (state : argp_state) (g : globals),
        is_field_key key = false -> key <> KEY_r -> key <> ARGP_KEY_NO_ARGS ->
        parse_opt key arg state g = Ret (ARGP_ERR_UNKNOWN, state, g)
        /\ (is_special_key key = false ->
            forall rest, argp_parse ((key, arg) :: rest) state g = Exit EX_USAGE)
        /\ (is_special_key key = true ->
            forall rest,
              argp_parse ((key, arg) :: rest) state g
              = if (key =? ARGP_KEY_ARG) || (key =? ARGP_KEY_ARGS) then Ret g
                else argp_parse rest state g))
  /\ (forall key : Z,
        is_special_key key = true -> is_field_key key = false /\ key <> KEY_r)
  /\ (forall (key : Z) (arg : option string) (state : argp_state) (g : globals)
             (err : Z) (state' : argp_state) (g' : globals),
        is_field_key key = false ->
        parse_opt key arg state g = Ret (err, state', g') ->
        values g' = values g).
Proof.
  split; [|split; [|split]].
  - intros key Hkey. destruct (descriptor_of_key key Hkey) as (d & Hd & Hid).
    exists d. pose proof (fields_lookup_descriptors _ _ Hd) as Hd'.
    pose proof fields_wf as Hwf. rewrite Forall_forall in Hwf.
    destruct (Hwf d) as [Hs Hk]; [by eapply list_elem_of_lookup_2|].
    repeat (split; [done|]).
    intros j d' Hj Hid'. subst key.
    assert (j = Z.to_nat (id d' - FIRST_VALUE)) as Hjeq
      by (apply descriptor_index_unique; [done|by rewrite Hid']).
    rewrite Hid' in Hjeq. split; [done|]. subst j. congruence.
  - intros key arg state g Hf Hr Hn.
    assert (parse_opt key arg state g = Ret (ARGP_ERR_UNKNOWN, state, g)) as Hp.
    { unfold parse_opt. apply Z.eqb_neq in Hr, Hn. by rewrite Hr, Hn, Hf. }
    split; [done|]. split.
    + intros Hs rest. cbn [argp_parse]. apply Z.eqb_neq in Hr.
      by rewrite Hs, Hf, Hr.
    + intros Hs rest. cbn [argp_parse]. rewrite Hs, Hp. cbn [obind].
      change (ARGP_ERR_UNKNOWN =? 0) with false.
      change (ARGP_ERR_UNKNOWN =? ARGP_ERR_UNKNOWN) with true.
      cbn [andb]. by destruct ((key =? ARGP_KEY_ARG) || (key =? ARGP_KEY_ARGS)).
  - intros key Hs. unfold is_special_key in Hs.
    apply existsb_exists in Hs as (x & Hin & Hx). apply Z.eqb_eq in Hx. subst x.
    cbn in Hin. by repeat (destruct Hin as [<-|Hin]; [done|]).
  - intros key arg state g err state' g' Hf. unfold parse_opt. rewrite Hf.
    destruct (key =? KEY_r).
    + destruct (argp_mandatory_argument arg state). intros [= _ _ <-]. done.
    + destruct (key =? ARGP_KEY_NO_ARGS); [done|]. by intros [= _ _ <-].
Qed.

(** ** [crun spec] *)

Import SpecC.

(** A call that gets as far as the path check. *)
Lemma crun_command_spec_checked
  (crun_path_exists : filesystem -> string -> Z -> Z)
  (fopen_succeeds : filesystem -> string -> bool)
  (libcrun_container_spec : Z -> string * Z)
  (argc : nat) (euid : Z) (fs : filesystem) :
  crun_command_spec crun_path_exists fopen_succeeds libcrun_container_spec
    (ArgpReturns argc) argc euid fs
  = if crun_path_exists fs config_json 0 <? 0
    then (fs, Ret (crun_path_exists fs config_json 0))
    else if negb (crun_path_exists fs config_json 0 =? 0)
         then (fs, Ret (crun_make_error 0))
         else if negb (fopen_succeeds fs config_json)
              then (fs, Ret (crun_make_error 0))
              else (<[config_json := (libcrun_container_spec euid).1]> fs, Fault).
Proof.
  unfold crun_command_spec, crun_assert_n_args.
  rewrite Z.sub_diag. cbn [Z.ltb Z.leb Z.compare andb].
  destruct (crun_path_exists fs config_json 0 <? 0); [reflexivity|].
  destruct (negb (crun_path_exists fs config_json 0 =? 0)); [reflexivity|].
  destruct (negb (fopen_succeeds fs config_json)); [reflexivity|].
  destruct (libcrun_container_spec euid) as [text r]. cbn [fst fclose obind leave cleanup_file].
  unfold filesystem in *. by rewrite insert_insert_eq.
Qed.

(** A call never changes a file unless it gets as far as [fopen]. *)
Lemma crun_command_spec_files
  (crun_path_exists : filesystem -> string -> Z -> Z)
  (fopen_succeeds : filesystem -> string -> bool)
  (libcrun_container_spec : Z -> string * Z)
  (argp : argp_answer) (argc : nat) (euid : Z) (fs : filesystem) :
  (crun_command_spec crun_path_exists fopen_succeeds libcrun_container_spec
     argp argc euid fs).1 = fs
  \/ (crun_path_exists fs config_json 0 = 0
      /\ fopen_succeeds fs config_json = true
      /\ crun_command_spec crun_path_exists fopen_succeeds libcrun_container_spec
           argp argc euid fs
         = (<[config_json := (libcrun_container_spec euid).1]> fs, Fault)).
Proof.
  unfold crun_command_spec.
  destruct argp as [first_arg|status]; [|left; reflexivity].
  destruct (crun_assert_n_args _ 0 0); [|left; reflexivity..].
  destruct (crun_path_exists fs config_json 0 <? 0); [left; reflexivity|].
  destruct (Z.eqb_spec (crun_path_exists fs config_json 0) 0) as [Hz|_];
    cbn [negb]; [|left; reflexivity].
  destruct (fopen_succeeds fs config_json); cbn [negb]; [|left; reflexivity].
  right. split; [exact Hz|]. split; [reflexivity|].
  destruct (libcrun_container_spec euid) as [text r]. cbn [fst fclose obind leave cleanup_file].
  unfold filesystem in *. by rewrite insert_insert_eq.
Qed.

(** C10. Given that [crun_path_exists] never answers 0 for a path that
    exists, [crun spec] leaves an existing config.json alone, whatever
    the command line, and with no argument it returns an error;
    whenever the files change at all, config.json did not exist before
    and now holds what [libcrun_container_spec] wrote. *)
Theorem spec_never_overwrites
  (crun_path_exists : filesystem -> string -> Z -> Z)
  (fopen_succeeds : filesystem -> string -> bool)
  (libcrun_container_spec : Z -> string * Z)
  (argp : argp_answer) (argc : nat) (euid : Z) (fs : filesystem) :
  (forall (fs0 : filesystem) (path : string) (readonly : Z),
     is_Some (fs0 !! path) -> crun_path_exists fs0 path readonly <> 0) ->
  (is_Some (fs !! config_json) ->
   (crun_command_spec crun_path_exists fopen_succeeds libcrun_container_spec
      argp argc euid fs).1 = fs
   /\ exists ret : Z,
        crun_command_spec crun_path_exists fopen_succeeds libcrun_container_spec
          (ArgpReturns argc) argc euid fs = (fs, Ret ret)
        /\ ret < 0)
  /\ ((crun_command_spec crun_path_exists fopen_succeeds libcrun_container_spec
         argp argc euid fs).1 = fs
      \/ (fs !! config_json = None
          /\ (crun_command_spec crun_path_exists fopen_succeeds libcrun_container_spec
                argp argc euid fs).1
             = <[config_json := (libcrun_container_spec euid).1]> fs)).
Proof.
  intros Hexists.
  assert (Hzero : crun_path_exists fs config_json 0 = 0 -> fs !! config_json = None).
  { intros Hz. destruct (fs !! config_json) eqn:E; [|reflexivity].
    exfalso. apply (Hexists fs config_json 0); [by rewrite E|exact Hz]. }
  split.
  - intros Hsome. split.
    + destruct (crun_command_spec_files crun_path_exists fopen_succeeds
                  libcrun_container_spec argp argc euid fs) as [H|(Hz & _)]; [exact H|].
      rewrite (Hzero Hz) in Hsome. by destruct Hsome.
    + rewrite crun_command_spec_checked.
      destruct (Z.ltb_spec (crun_path_exists fs config_json 0) 0) as [Hneg|_];
        [by eexists|].
      destruct (Z.eqb_spec (crun_path_exists fs config_json 0) 0) as [Hz|_]; cbn [negb].
      * rewrite (Hzero Hz) in Hsome. by destruct Hsome.
      * eexists. split; [reflexivity|]. unfold crun_make_error. lia.
  - destruct (crun_command_spec_files crun_path_exists fopen_succeeds
                libcrun_container_spec argp argc euid fs) as [H|(Hz & _ & H)];
      [left; exact H|].
    right. split; [exact (Hzero Hz)|]. by rewrite H.
Qed.

Lemma spec_never_overwrites_witness :
  (crun_command_spec path_exists_by_lookup (fun _ _ => true)
     (fun _ => ("{}"%string, 0)) (ArgpReturns 1) 1 0 {[config_json := "old"%string]}).1
  = {[config_json := "old"%string]}
  /\ exists ret : Z,
       crun_command_spec path_exists_by_lookup (fun _ _ => true)
         (fun _ => ("{}"%string, 0)) (ArgpReturns 1) 1 0 {[config_json := "old"%string]}
       = ({[config_json := "old"%string]}, Ret ret)
       /\ ret < 0.
Proof.
  apply (spec_never_overwrites path_exists_by_lookup (fun _ _ => true)
           (fun _ => ("{}"%string, 0)) (ArgpReturns 1) 1 0 {[config_json := "old"%string]}).
  - intros fs0 path readonly [x Hx]. unfold path_exists_by_lookup. rewrite Hx. lia.
  - unfold filesystem. rewrite lookup_singleton_eq. by eexists.
Defined.

(** ** The seccomp-listener probe *)

Import InitC.

Lemma wait_loop_interrupted (n : nat) (final : Z * Z * Z) :
  ((final.1.1 <? 0) && (final.1.2 =? EINTR)) = false ->
  wait_loop (replicate n (-1, EINTR, 0) ++ [final]) = Some (final.1.1, final.2).
Proof.
  intros Hfinal. induction n as [|n IH].
  - destruct final as [[ret errno] status]. cbn in *. by rewrite Hfinal.
  - cbn [replicate app wait_loop]. exact IH.
Qed.

Lemma child_main_exit (o : os) :
  (child_main o).2 = if (0 <=? prctl_ret o) && (0 <? seccomp_ret o) then 0 else 1.
Proof.
  unfold child_main.
  destruct (Z.ltb_spec (prctl_ret o) 0), (Z.leb_spec (seccomp_ret o) 0),
    (Z.leb_spec 0 (prctl_ret o)), (Z.ltb_spec 0 (seccomp_ret o)); cbn; lia.
Qed.

(** The filter the child installs is one instruction, return-allow. *)
Lemma bpf_always_allows :
  read_sock_filter bpf = Some (mk_sock_filter BPF_RET_K 0 0 SECCOMP_RET_ALLOW).
Proof. reflexivity. Qed.

(** C6, as stated, fails when the [seccomp] call succeeds with
    descriptor 0 (the probe was started with descriptor 0 closed): the
    install went through and the probe exits with 1. It also fails when
    the install went through and [waitpid] fails, here with [ECHILD]. *)
Lemma probe_rejects_descriptor_zero :
  (check_feature_seccomp_listener (mk_os true 4242 0 0 0 None None) = Ret 1
   /\ listener_install_succeeds (mk_os true 4242 0 0 0 None None))
  /\ (check_feature_seccomp_listener (mk_os true 4242 0 3 0 (Some 10) None) = Ret 1
      /\ listener_install_succeeds (mk_os true 4242 0 3 0 (Some 10) None)).
Proof. unfold listener_install_succeeds. cbn. repeat split; lia. Qed.

Lemma killed_status_not_exited (sig : Z) :
  0 < sig < 128 -> WIFEXITED (Z.land sig 127) = false.
Proof.
  intros Hsig.
  assert (Z.land sig 127 = sig) as Hland.
  { change 127 with (Z.ones 7). rewrite Z.land_ones by lia.
    change (2 ^ 7) with 128. apply Z.mod_small. lia. }
  unfold WIFEXITED. rewrite !Hland. apply Z.eqb_neq. lia.
Qed.

Lemma probe_value (o : os) :
  well_formed o ->
  check_feature_seccomp_listener o = Ret (if probe_passes o then 0 else 1).
Proof.
  intros (Hfork & Hwait & Hsig).
  unfold check_feature_seccomp_listener, probe_passes.
  destruct (have_seccomp o); [|done]. cbn [andb].
  destruct (Z.ltb_spec (fork_ret o) 0) as [Hneg|Hpos].
  { assert ((0 <? fork_ret o) = false) as -> by (apply Z.ltb_ge; lia). done. }
  assert ((0 <? fork_ret o) = true) as -> by (apply Z.ltb_lt; lia).
  apply Z.eqb_neq in Hfork as Hfork'. rewrite Hfork'. cbn [negb andb].
  unfold waitpid_answers. rewrite wait_loop_interrupted.
  2:{ destruct (wait_error o) as [e|] eqn:He; cbn [fst snd].
      - assert (e <> EINTR) as Hne by congruence.
        apply Z.eqb_neq in Hne. rewrite Hne. apply andb_false_r.
      - apply Z.ltb_ge in Hpos. by rewrite Hpos. }
  destruct (wait_error o) as [e|] eqn:He; cbn [fst snd].
  { assert ((-1 =? fork_ret o) = false) as -> by (apply Z.eqb_neq; lia).
    rewrite bool_decide_eq_false_2 by done. by rewrite !andb_false_r. }
  rewrite Z.eqb_refl, bool_decide_eq_true_2 by done. cbn [andb]. unfold child_status.
  destruct (child_killed o) as [sig|] eqn:Hk.
  { rewrite killed_status_not_exited by auto.
    rewrite bool_decide_eq_false_2 by done. by rewrite !andb_false_r. }
  rewrite bool_decide_eq_true_2, andb_true_r by done.
  rewrite child_main_exit.
  by destruct ((0 <=? prctl_ret o) && (0 <? seccomp_ret o)).
Qed.

Lemma probe_passes_iff (o : os) :
  probe_passes o = true
  <-> have_seccomp o = true /\ 0 < fork_ret o /\ 0 <= prctl_ret o
      /\ 0 < seccomp_ret o /\ wait_error o = None /\ child_killed o = None.
Proof.
  unfold probe_passes.
  rewrite !andb_true_iff, !bool_decide_eq_true, !Z.ltb_lt, Z.leb_le. tauto.
Qed.

(** C6, amended. In the process that called [fork] (so that [fork] did
    not return 0), with a [waitpid] that ends up answering something
    other than [EINTR], the probe exits with 0 or 1, and with 0 exactly
    when it was built with seccomp, [fork] succeeded, the child's
    [prctl] did not fail, the child's [seccomp] call returned a
    descriptor above 0, and [waitpid] reported the child as exited and
    not killed. The child calls [prctl] for no-new-privileges first and
    [seccomp] second, with [SECCOMP_SET_MODE_FILTER], the new-listener
    flag and the one-instruction return-allow filter. *)
Theorem probe_exit_status (o : os) :
  well_formed o ->
  exists status : Z,
    check_feature_seccomp_listener o = Ret status
    /\ (status = 0 \/ status = 1)
    /\ (status = 0
        <-> have_seccomp o = true /\ 0 < fork_ret o /\ 0 <= prctl_ret o
            /\ 0 < seccomp_ret o /\ wait_error o = None /\ child_killed o = None)
    /\ (child_main o).1
       = (if prctl_ret o <? 0 then [SysPrctlNoNewPrivs]
          else [SysPrctlNoNewPrivs;
                SysSeccomp SECCOMP_SET_MODE_FILTER SECCOMP_FILTER_FLAG_NEW_LISTENER 1 bpf])
    /\ read_sock_filter bpf = Some (mk_sock_filter BPF_RET_K 0 0 SECCOMP_RET_ALLOW).
Proof.
  intros Hwf. exists (if probe_passes o then 0 else 1).
  split; [by apply probe_value|].
  split; [destruct (probe_passes o); auto|].
  split.
  { rewrite <- probe_passes_iff. destruct (probe_passes o); split; (done || lia). }
  split; [|reflexivity].
  unfold child_main. destruct (prctl_ret o <? 0); [done|].
  by destruct (seccomp_ret o <=? 0).
Qed.

Lemma probe_exit_status_witness :
  exists status : Z,
    check_feature_seccomp_listener (mk_os true 4242 0 3 2 None None) = Ret status
    /\ status = 0.
Proof.
  destruct (probe_exit_status (mk_os true 4242 0 3 2 None None))
    as (status & Hrun & _ & Hiff & _).
  - unfold well_formed. cbn. repeat split; (lia || congruence).
  - exists status. split; [exact Hrun|].
    apply Hiff. cbn. repeat split; (lia || reflexivity).
Defined.

(** ** Options given more than once *)

Lemma supplied_cons (key : Z) (o : Z * string) (opts : list (Z * string)) :
  supplied key (o :: opts)
  = if o.1 =? key then o.2 :: supplied key opts else supplied key opts.
Proof. unfold supplied. cbn [omap list_omap]. by destruct (o.1 =? key). Qed.

Lemma field_key_not_resources (key : Z) :
  is_field_key key = true -> (key =? KEY_r) = false /\ (key =? ARGP_KEY_NO_ARGS) = false.
Proof.
  intros H. apply field_key_index in H.
  unfold FIRST_VALUE, LAST_VALUE, KEY_r, ARGP_KEY_NO_ARGS in *.
  split; apply Z.eqb_neq; lia.
Qed.

Lemma parse_opt_resources (a : string) (state : argp_state) (g : globals) :
  parse_opt KEY_r (Some a) state g = Ret (0, state, mk_globals (Some a) (values g)).
Proof. reflexivity. Qed.

Lemma parse_opt_field (key : Z) (a : string) (state : argp_state) (g : globals) :
  is_field_key key = true ->
  parse_opt key (Some a) state g
  = Ret (0, state, mk_globals (resources g) (set_value key (Some a) (values g))).
Proof.
  intros H. destruct (field_key_not_resources key H) as [Hr Hn].
  unfold parse_opt. by rewrite Hr, Hn, H.
Qed.

Lemma option_key_not_special (key : Z) :
  is_option_key key = true -> is_special_key key = false.
Proof.
  unfold is_option_key. intros H. apply orb_true_iff in H as [H|H].
  - apply field_key_cases in H.
    by repeat (destruct H as [->|H]; [reflexivity|]); subst key.
  - apply Z.eqb_eq in H. by subst key.
Qed.

(** An option of the table goes to [parse_opt]. *)
Lemma argp_parse_option_key
  (key : Z) (arg : option string) (rest : list (Z * option string))
  (state : argp_state) (g : globals) :
  is_option_key key = true ->
  argp_parse ((key, arg) :: rest) state g
  = (r <-- parse_opt key arg state g ;;
     let '(err, state', g') := r in
     if err =? 0 then argp_parse rest state' g' else Exit EX_USAGE).
Proof.
  intros H. cbn [argp_parse]. rewrite (option_key_not_special key H).
  unfold is_option_key in H. by rewrite H.
Qed.

(** After the option layer has run, [resources] holds the last file
    given and each cell of [values] the last value given for its key. *)
Lemma argp_parse_options (opts : list (Z * string)) (state : argp_state) :
  Forall (fun o : Z * string => is_option_key o.1 = true) opts ->
  forall g : globals,
    length (values g) = n_values ->
    exists g' : globals,
      argp_parse (deliver opts) state g = Ret g'
      /\ length (values g') = n_values
      /\ resources g' = match last (supplied KEY_r opts) with
                        | Some file => Some file
                        | None => resources g
                        end
      /\ forall key : Z,
           is_field_key key = true ->
           values g' !! Z.to_nat (key - FIRST_VALUE)
           = match last (supplied key opts) with
             | Some v => Some (Some v)
             | None => values g !! Z.to_nat (key - FIRST_VALUE)
             end.
Proof.
  induction 1 as [|[k a] opts Hk _ IH]; intros g Hlen.
  - exists g. by cbn.
  - cbn [deliver fmap list_fmap fst snd]. fold (deliver opts).
    cbn [fst] in Hk. rewrite (argp_parse_option_key _ _ _ _ _ Hk).
    unfold is_option_key in Hk.
    apply orb_true_iff in Hk as [Hk|Hk].
    + rewrite (parse_opt_field k a state g Hk). cbn [obind Z.eqb].
      destruct (IH (mk_globals (resources g) (set_value k (Some a) (values g))))
        as (g' & Hrun & Hlen' & Hres & Hvals).
      { cbn [values]. unfold set_value. by rewrite length_insert. }
      exists g'. split; [done|]. split; [done|]. split.
      * rewrite supplied_cons. cbn [fst snd].
        destruct (field_key_not_resources k Hk) as [-> _]. exact Hres.
      * intros key Hkey. rewrite (Hvals key Hkey), supplied_cons. cbn [fst snd values].
        destruct (Z.eqb_spec k key) as [->|Hne].
        -- rewrite last_cons. destruct (last (supplied key opts)); [done|].
           unfold set_value. apply list_lookup_insert_eq.
           apply field_key_index in Hkey.
           unfold FIRST_VALUE, LAST_VALUE in *. rewrite Hlen. unfold n_values.
           unfold FIRST_VALUE, LAST_VALUE. lia.
        -- destruct (last (supplied key opts)); [done|].
           unfold set_value. apply list_lookup_insert_ne.
           apply field_key_index in Hkey, Hk.
           unfold FIRST_VALUE, LAST_VALUE in *. lia.
    + apply Z.eqb_eq in Hk. subst k. rewrite parse_opt_resources. cbn [obind Z.eqb].
      destruct (IH (mk_globals (Some a) (values g))) as (g' & Hrun & Hlen' & Hres & Hvals);
        [done|].
      exists g'. split; [done|]. split; [done|]. split.
      * rewrite supplied_cons. cbn [fst snd]. rewrite Z.eqb_refl, last_cons.
        rewrite Hres. by destruct (last (supplied KEY_r opts)).
      * intros key Hkey. rewrite (Hvals key Hkey), supplied_cons. cbn [fst snd values].
        destruct (field_key_not_resources key Hkey) as [Hr _].
        rewrite Z.eqb_sym in Hr. by rewrite Hr.
Qed.

Lemma set_of_fst_sublist (ds : list description_s) (vs : list (option string)) :
  (set_of (zip ds vs)).*1 `sublist_of` ds.
Proof.
  revert vs. induction ds as [|d ds IH]; intros vs; [done|].
  destruct vs as [|[v|] vs]; cbn.
  - apply sublist_nil_l.
  - apply sublist_skip, IH.
  - apply sublist_cons, IH.
Qed.






Lemma field_key_of_index (i : nat) :
  (i < n_values)%nat ->
  is_field_key (FIRST_VALUE + Z.of_nat i) = true
  /\ Z.to_nat (FIRST_VALUE + Z.of_nat i - FIRST_VALUE) = i.
Proof.
  intros Hi. split; [|lia].
  change n_values with 14%nat in Hi.
  do 14 (destruct i as [|i]; [reflexivity|]).
  exfalso. lia.
Qed.

(** The strings parsing leaves in [values] are arguments of the command
    line. *)
Lemma parsed_strings_valid (opts : list (Z * string)) (g : globals) :
  Forall (fun o : Z * string => utf8_valid o.2 = true) opts ->
  length (values g) = n_values ->
  (forall key : Z,
     is_field_key key = true ->
     values g !! Z.to_nat (key - FIRST_VALUE)
     = match last (supplied key opts) with
       | Some v => Some (Some v)
       | None => values_init !! Z.to_nat (key - FIRST_VALUE)
       end) ->
  strings_valid (values g) = true.
Proof.
  intros Hopts Hlen Hvals. unfold strings_valid. apply forallb_forall.
  intros [d v] Hin. apply list_elem_of_In, set_fields_elem in Hin as (j & Hd & Hv).
  cbn [fst snd]. apply orb_true_iff. right.
  assert (Hj : (j < n_values)%nat).
  { rewrite <- fields_length. apply lookup_lt_is_Some. eauto. }
  destruct (field_key_of_index j Hj) as [Hkey Hidx].
  specialize (Hvals _ Hkey). rewrite Hidx, Hv in Hvals.
  destruct (last (supplied (FIRST_VALUE + Z.of_nat j) opts)) as [v'|] eqn:Hlast.
  - injection Hvals as ->. apply last_Some_elem_of in Hlast.
    unfold supplied in Hlast. apply list_elem_of_omap in Hlast as ([k a] & Ho & Heq).
    cbn [fst snd] in Heq. destruct (k =? FIRST_VALUE + Z.of_nat j); [|discriminate Heq].
    injection Heq as ->. rewrite Forall_forall in Hopts. exact (Hopts _ Ho).
  - unfold values_init in Hvals. rewrite lookup_replicate_2 in Hvals by exact Hj.
    discriminate Hvals.
Qed.




(** ** The source of an update *)

(** C5, as stated, fails: with [--memory 100] and [--resources res.json]
    on one command line the command goes on, reads the file only, and
    returns what libcrun returns for the file (here 0, success), exactly
    as it does without [--memory]. *)
Lemma update_flags_dropped_with_resources :
  crun_command_update (fun _ => 0) (fun _ _ => 0) (fun _ _ => 0)
    ["update"; "--memory"; "100"; "--resources"; "res.json"; "c1"]%string
    (deliver [(MEMORY, "100"); (KEY_r, "res.json")]%string) 5
  = Ret (UpdatedFromFile "c1" "res.json" 0)
  /\ crun_command_update (fun _ => 0) (fun _ _ => 0) (fun _ _ => 0)
       ["update"; "--resources"; "res.json"; "c1"]%string
       (deliver [(KEY_r, "res.json")]%string) 3
     = Ret (UpdatedFromFile "c1" "res.json" 0).
Proof. split; reflexivity. Qed.

(** C5, amended. A call with one container argument whose context
    initialisation fails consumes no source. Otherwise it consumes
    exactly one: when [--resources] was given, the file named last, and
    nothing of the per-field flags, whatever they are; when it was not
    given, the document [build_file] makes of the per-field values. *)
Theorem update_single_source
  (init : string -> Z) (upd : string -> yajl_gen -> Z) (updf : string -> string -> Z)
  (argv : list string) (opts : list (Z * string)) (first_arg : nat) (container : string) :
  Forall (fun o : Z * string => is_option_key o.1 = true) opts ->
  length argv = S first_arg ->
  argv !! first_arg = Some container ->
  (init container < 0 ->
   crun_command_update init upd updf argv (deliver opts) first_arg
   = Ret (InitFailed (init container)))
  /\ (0 <= init container ->
      forall file : string,
        last (supplied KEY_r opts) = Some file ->
        crun_command_update init upd updf argv (deliver opts) first_arg
        = Ret (UpdatedFromFile container file (updf container file)))
  /\ (0 <= init container ->
      last (supplied KEY_r opts) = None ->
      exists g : globals,
        argp_parse (deliver opts) (mk_argp_state argv 1) globals_init = Ret g
        /\ resources g = None
        /\ crun_command_update init upd updf argv (deliver opts) first_arg
           = (content <-- build_file (values g) ;;
              Ret (UpdatedFromContent container content (upd container content)))).
Proof.
  intros Hopts Hlen Harg.
  destruct (argp_parse_options opts (mk_argp_state argv 1) Hopts globals_init)
    as (g & Hrun & _ & Hres & _); [done|].
  rewrite (crun_command_update_spec _ _ _ _ _ _ g container) by done.
  split; [|split].
  - intros Hneg. apply Z.ltb_lt in Hneg. by rewrite Hneg.
  - intros Hok file Hfile. apply Z.ltb_ge in Hok.
    rewrite Hok, Hres, Hfile. reflexivity.
  - intros Hok Hnone. apply Z.ltb_ge in Hok. rewrite Hnone in Hres.
    exists g. split; [done|]. split; [done|]. by rewrite Hok, Hres.
Qed.

Lemma update_single_source_witness :
  crun_command_update (fun _ => 0) (fun _ _ => 0) (fun _ _ => 0)
    ["update"; "--cpu-share"; "512"; "--resources"; "res.json"; "c1"]%string
    (deliver [(CPU_SHARE, "512"); (KEY_r, "res.json")]%string) 5
  = Ret (UpdatedFromFile "c1" "res.json" 0).
Proof.
  destruct (update_single_source (fun _ => 0) (fun _ _ => 0) (fun _ _ => 0)
              ["update"; "--cpu-share"; "512"; "--resources"; "res.json"; "c1"]%string
              [(CPU_SHARE, "512"); (KEY_r, "res.json")]%string 5 "c1"%string)
    as (_ & Hfile & _).
  - repeat constructor.
  - reflexivity.
  - reflexivity.
  - apply Hfile; [lia|reflexivity].
Defined.

(** ** The empty document *)

Lemma plan_fields_empty
  (backend_writes : Engine.CgroupTarget -> Document -> string * string -> field_value
                    -> option (list Engine.ControllerWrite))
  (fs : list (string * string)) (t : Engine.CgroupTarget) :
  Engine.plan_fields backend_writes fs ∅ t = inr [].
Proof.
  induction fs as [|f fs IH]; [done|].
  cbn [Engine.plan_fields]. by rewrite lookup_empty.
Qed.

(** C4. With no resource option stored, [build_file] writes the empty
    top-level map, which is the canonical document with no section and
    parses to the empty Document; the plan for the empty Document has no
    write whatever the backend; and for a call with one container
    argument whose context initialises and whose cgroup resolves, the
    engine reports success and the command returns 0 having handed
    libcrun the empty map. *)
Theorem empty_document_updates_nothing
  (init : string -> Z) (updf : string -> string -> Z)
  (backend_writes : Engine.CgroupTarget -> Document -> string * string -> field_value
                    -> option (list Engine.ControllerWrite))
  (apply : Engine.ControllerWrite -> option Z)
  (resolve : string -> option Engine.CgroupTarget)
  (argv : list string) (first_arg : nat) (container : string)
  (t : Engine.CgroupTarget) :
  length argv = S first_arg ->
  argv !! first_arg = Some container ->
  0 <= init container ->
  resolve container = Some t ->
  build_file values_init = Ret [MapOpen; MapClose]
  /\ canonical values_init = []
  /\ parse [MapOpen; MapClose] = Some ∅
  /\ Engine.plan backend_writes ∅ t = inr []
  /\ Engine.update backend_writes apply resolve container ∅ = Engine.Success
  /\ crun_command_update init
       (Engine.libcrun_container_update backend_writes apply resolve) updf
       argv [] first_arg
     = Ret (UpdatedFromContent container [MapOpen; MapClose] 0).
Proof.
  intros Hlen Harg Hinit Hresolve.
  assert (Engine.plan backend_writes ∅ t = inr []) as Hplan
    by apply plan_fields_empty.
  assert (Engine.update backend_writes apply resolve container ∅ = Engine.Success)
    as Hupdate by (unfold Engine.update; by rewrite Hresolve, Hplan).
  split; [reflexivity|]. split; [reflexivity|]. split; [reflexivity|].
  split; [done|]. split; [done|].
  rewrite (crun_command_update_spec _ _ _ _ _ _ globals_init container) by done.
  apply Z.ltb_ge in Hinit. rewrite Hinit. cbn [resources globals_init].
  change (build_file (values globals_init)) with (Ret (A := yajl_gen) [MapOpen; MapClose]).
  cbn [obind]. unfold Engine.libcrun_container_update.
  change (parse [MapOpen; MapClose]) with (Some (∅ : Document)).
  cbv beta iota. by rewrite Hupdate.
Qed.

Lemma empty_document_updates_nothing_witness :
  crun_command_update (fun _ => 0)
    (Engine.libcrun_container_update
       (fun _ _ _ _ => Some [])
       (fun _ => None)
       (fun _ => Some (Engine.TargetV2 "/sys/fs/cgroup/c1")))
    (fun _ _ => 0)
    ["update"; "c1"]%string [] 1
  = Ret (UpdatedFromContent "c1" [MapOpen; MapClose] 0).
Proof.
  destruct (empty_document_updates_nothing (fun _ => 0) (fun _ _ => 0)
              (fun _ _ _ _ => Some []) (fun _ => None)
              (fun _ => Some (Engine.TargetV2 "/sys/fs/cgroup/c1"))
              ["update"; "c1"]%string 1 "c1"%string
              (Engine.TargetV2 "/sys/fs/cgroup/c1"))
    as (_ & _ & _ & _ & _ & Hrun); [reflexivity|reflexivity|lia|reflexivity|].
  exact Hrun.
Defined.

(** ** The round trip *)

(** C2, at a document where it fails, by the same wrap to [long] that
    breaks C8. [--memory 9223372036854775808]
    is an unsigned decimal within [unsigned long]; the Document built
    from it holds that number; [build_file] writes the negative number
    it wraps to; and the parser, which reads unsigned numbers, does not
    give the Document back. *)
Lemma round_trip_breaks_above_long_max :
  exists doc : Document,
    document_of_options
      (set_value MEMORY (Some "9223372036854775808"%string) values_init) = Some doc
    /\ doc !! ("memory"%string, "limit"%string) = Some (VNum 9223372036854775808)
    /\ build_file (set_value MEMORY (Some "9223372036854775808"%string) values_init)
       = Ret [MapOpen; Str "memory"; MapOpen; Str "limit";
              Int (-9223372036854775808); MapClose; MapClose]
    /\ parse [MapOpen; Str "memory"; MapOpen; Str "limit";
              Int (-9223372036854775808); MapClose; MapClose] = None.
Proof.
  exists (<[("memory"%string, "limit"%string) := VNum 9223372036854775808]> ∅).
  split; [|split; [|split]].
  - unfold document_of_options.
    assert (set_fields (set_value MEMORY (Some "9223372036854775808"%string) values_init)
            = [(mk_description MEMORY 2 (Some "limit"%string) 1,
                "9223372036854775808"%string)]) as -> by (vm_compute; reflexivity).
    cbn [foldr fst snd].
    assert (option_value (mk_description MEMORY 2 (Some "limit"%string) 1)
              "9223372036854775808"
            = Some (VNum 9223372036854775808)) as -> by (vm_compute; reflexivity).
    reflexivity.
  - apply lookup_insert_eq.
  - vm_compute. reflexivity.
  - reflexivity.
Qed.

Lemma parse_step_key (sec k : string) (d : description_s) (doc : Document) :
  descriptor_for sec k = Some d ->
  parse_step (InSection sec, doc) (Str k)
  = (AtValue sec k (negb (numeric d =? 0)), doc).
Proof. intros H. cbn. by rewrite H. Qed.

Lemma parse_step_number (sec k : string) (n : Z) (doc : Document) :
  0 <= n ->
  parse_step (AtValue sec k true, doc) (Int n)
  = (InSection sec, <[(sec, k) := VNum (Z.to_N n)]> doc).
Proof. intros H. apply Z.leb_le in H. cbn. by rewrite H. Qed.

Lemma parse_step_section (name : string) (doc : Document) :
  existsb (String.eqb name) sections = true ->
  parse_step (InDocument, doc) (Str name) = (SectionNamed name, doc).
Proof. intros H. unfold parse_step. by rewrite H. Qed.

Lemma parse_members_ok (sec : string) (ms : list jmember) :
  Forall (member_ok sec) ms ->
  forall (doc : Document) (rest : list event),
    foldl parse_step (InSection sec, doc) (flat_map member_events ms ++ rest)
    = foldl parse_step (InSection sec, insert_all doc (section_entries (sec, ms))) rest.
Proof.
  induction 1 as [|[k jv] ms (d & Hd & Hkind) _ IH]; intros doc rest; [done|].
  cbn [flat_map member_events app fst snd foldl] in *.
  rewrite (parse_step_key sec k d doc Hd).
  destruct jv as [n|v]; cbn [value_event].
  - destruct Hkind as [Hnum Hn]. apply Z.eqb_neq in Hnum.
    rewrite Hnum. cbn [negb]. rewrite parse_step_number by done. apply IH.
  - apply Z.eqb_eq in Hkind. rewrite Hkind. cbn [negb]. apply IH.
Qed.

Lemma insert_all_app (doc : Document) (l1 l2 : list entry) :
  insert_all doc (l1 ++ l2) = insert_all (insert_all doc l1) l2.
Proof. apply foldl_app. Qed.

Lemma parse_sections_ok (secs : jdoc) :
  Forall section_ok secs ->
  forall (doc : Document) (rest : list event),
    foldl parse_step (InDocument, doc) (flat_map section_events secs ++ rest)
    = foldl parse_step (InDocument, insert_all doc (entries secs)) rest.
Proof.
  induction 1 as [|[name ms] secs [Hname Hms] _ IH]; intros doc rest; [done|].
  cbn [flat_map fst snd] in *. unfold section_events at 1.
  cbn [app foldl fst snd]. rewrite (parse_step_section name doc Hname).
  change (parse_step (SectionNamed name, doc) MapOpen) with (InSection name, doc).
  rewrite <- !app_assoc, (parse_members_ok name ms Hms). cbn [app foldl].
  change (parse_step (InSection name, ?d) MapClose) with (InDocument, d).
  rewrite IH. unfold entries. cbn [flat_map]. by rewrite insert_all_app.
Qed.

Lemma parse_canonical (cdoc : jdoc) :
  Forall section_ok cdoc ->
  parse (doc_events cdoc) = Some (insert_all ∅ (entries cdoc)).
Proof.
  intros Hok. unfold parse, doc_events. cbn [foldl].
  change (parse_step (AtStart, ∅) MapOpen) with (InDocument, (∅ : Document)).
  by rewrite (parse_sections_ok cdoc Hok).
Qed.

Lemma insert_all_list_to_map (l : list entry) :
  insert_all ∅ l = list_to_map (reverse l).
Proof.
  induction l as [|[k v] l IH] using rev_ind; [done|].
  unfold insert_all in *. rewrite foldl_snoc, reverse_snoc, list_to_map_cons.
  cbn [fst snd]. by rewrite IH.
Qed.

Lemma document_of_options_inv (vals : values_t) (doc : Document) :
  document_of_options vals = Some doc ->
  Forall (fun p : description_s * string => is_Some (option_value p.1 p.2)) (set_fields vals)
  /\ doc = list_to_map (option_entry <$> set_fields vals).
Proof.
  unfold document_of_options. generalize (set_fields vals). intros S. revert doc.
  induction S as [|p S IH]; intros doc.
  - cbn. intros [= <-]. by split.
  - cbn [foldr].
    destruct (foldr _ _ S) as [doc'|] eqn:E; [|done].
    destruct (option_value p.1 p.2) as [v|] eqn:Ev; [|done].
    intros [= <-]. destruct (IH doc' eq_refl) as [Hall ->].
    split; [constructor; [by rewrite Ev|done]|].
    assert (option_entry p = ((section_name p.1, field_name p.1), v)) as Hp
      by (unfold option_entry, key_of; by rewrite Ev).
    rewrite fmap_cons, Hp. by rewrite list_to_map_cons.
Qed.

Lemma flat_map_omap {A B C : Type} (f : A -> option B) (g : B -> list C) (l : list A) :
  flat_map g (omap f l)
  = flat_map (fun x => match f x with Some y => g y | None => [] end) l.
Proof.
  induction l as [|x l IH]; [done|]. cbn.
  destruct (f x); cbn; by rewrite IH.
Qed.

Lemma section_name_lookup (d : description_s) (i : nat) (name : string) :
  sections !! i = Some name -> section d = i -> section_name d = name.
Proof. intros Hname <-. unfold section_name. by rewrite Hname. Qed.

(** What one section contributes to the entries of the canonical
    document: the entries of its fields that hold a value. *)
Lemma section_doc_entries (vals : values_t) (i : nat) :
  (i < n_sections)%nat ->
  match section_doc vals i with
  | Some s => section_entries s
  | None => []
  end
  = entry_of <$> List.filter (in_section i) (set_fields vals).
Proof.
  intros Hi. destruct (lookup_lt_is_Some_2 sections i Hi) as [name Hname].
  destruct (existsb (in_section i) (set_fields vals)) eqn:E.
  - rewrite (section_doc_some vals i name Hname E).
    unfold section_entries, members. cbn [fst snd]. rewrite <- list_fmap_compose.
    apply list_fmap_ext. intros k [d v] Hk. cbn.
    apply list_elem_of_lookup_2, list_elem_of_In, filter_In in Hk as [_ Hsec].
    unfold in_section in Hsec. cbn in Hsec. apply Nat.eqb_eq in Hsec.
    unfold entry_of, key_of. cbn [fst snd].
    by rewrite (section_name_lookup d i name Hname Hsec).
  - rewrite (section_doc_none vals i E). by rewrite (existsb_filter_nil _ _ E).
Qed.

Lemma filter_sections_Permutation (S : list (description_s * string)) :
  Forall (fun p : description_s * string => (section p.1 < n_sections)%nat) S ->
  flat_map (fun i => List.filter (in_section i) S) (seq 0 n_sections) ≡ₚ S.
Proof.
  change (seq 0 n_sections) with [0; 1; 2; 3]%nat. cbn [flat_map].
  induction 1 as [|[d v] S Hd _ IH]; [done|].
  cbn [List.filter].
  change (in_section 0 (d, v)) with (section d =? 0)%nat.
  change (in_section 1 (d, v)) with (section d =? 1)%nat.
  change (in_section 2 (d, v)) with (section d =? 2)%nat.
  change (in_section 3 (d, v)) with (section d =? 3)%nat.
  cbn [fst] in *. rewrite !app_nil_r in *.
  destruct (section d) as [|[|[|[|n]]]]; cbn [Nat.eqb];
    [| | | |unfold n_sections in Hd; cbn in Hd; lia].
  - cbn [app]. by apply perm_skip.
  - cbn [app]. rewrite <- Permutation_middle. by apply perm_skip.
  - cbn [app]. rewrite app_assoc, <- Permutation_middle, <- app_assoc.
    by apply perm_skip.
  - rewrite !app_assoc, <- Permutation_middle, <- !app_assoc. by apply perm_skip.
Qed.

Lemma set_fields_sections (vals : values_t) :
  Forall (fun p : description_s * string => (section p.1 < n_sections)%nat)
    (set_fields vals).
Proof. apply Forall_forall. intros p Hp. by apply (set_fields_section vals). Qed.

Lemma entries_canonical_Permutation (vals : values_t) :
  entries (canonical vals) ≡ₚ entry_of <$> set_fields vals.
Proof.
  transitivity
    (entry_of <$> flat_map (fun i => List.filter (in_section i) (set_fields vals))
                    (seq 0 n_sections)).
  - unfold entries, canonical. rewrite flat_map_omap.
    unfold n_sections. cbn [seq length sections flat_map].
    rewrite !fmap_app, !section_doc_entries by (vm_compute; lia).
    reflexivity.
  - apply fmap_Permutation, filter_sections_Permutation, set_fields_sections.
Qed.

Lemma descriptor_for_field (d : description_s) :
  d ∈ fields -> descriptor_for (section_name d) (field_name d) = Some d.
Proof.
  intros Hd. apply list_elem_of_In in Hd.
  repeat (destruct Hd as [<-|Hd]; [reflexivity|]). destruct Hd.
Qed.

Lemma section_name_in_sections (d : description_s) :
  d ∈ fields -> existsb (String.eqb (section_name d)) sections = true.
Proof.
  intros Hd. apply list_elem_of_In in Hd.
  repeat (destruct Hd as [<-|Hd]; [reflexivity|]). destruct Hd.
Qed.

Lemma keys_NoDup : NoDup (key_of <$> fields).
Proof. by apply (bool_decide_unpack _); vm_compute. Qed.

Lemma set_fields_in_fields (vals : values_t) (p : description_s * string) :
  p ∈ set_fields vals -> p.1 ∈ fields.
Proof.
  destruct p as [d v]. intros Hp. apply set_fields_elem in Hp as (j & Hd & _).
  by eapply list_elem_of_lookup_2.
Qed.

Lemma entry_keys_NoDup (vals : values_t) :
  NoDup (entry_of <$> set_fields vals).*1.
Proof.
  rewrite <- list_fmap_compose.
  change (fst ∘ entry_of)
    with (key_of ∘ (fst : description_s * string -> description_s)).
  rewrite list_fmap_compose.
  eapply sublist_NoDup; [apply keys_NoDup|].
  apply fmap_sublist, set_of_fst_sublist.
Qed.

(** A numeric value the options accept and that fits [long] is written
    as itself; a cpuset value is written as given. *)
Lemma option_entry_written (p : description_s * string) :
  is_Some (option_value p.1 p.2) -> fits_long p ->
  option_entry p = entry_of p
  /\ match field_json p.1 p.2 with
     | JNum n => numeric p.1 <> 0 /\ 0 <= n
     | JStr _ => numeric p.1 = 0
     end
  /\ out_of_range p = false.
Proof.
  destruct p as [d s]. unfold fits_long, option_entry, entry_of, option_value.
  cbn [fst snd]. intros [v Hv] Hfits.
  destruct (Z.eqb_spec (numeric d) 0) as [Hnum|Hnum].
  - unfold field_json, out_of_range. cbn [fst snd].
    apply Z.eqb_eq in Hnum as Hnum'. rewrite Hnum'. cbn. split; [done|]. by split.
  - destruct (is_unsigned_decimal s) eqn:Hdec; [|done]. cbn [andb] in Hv.
    destruct (field_json_exact d s Hnum Hdec (Hfits Hnum)) as [-> ->].
    destruct (decimal_value s <=? ULONG_MAX); [|done]. cbn.
    split; [done|]. split; [|done]. split; [done|].
    apply decimal_value_nonneg. by destruct s.
Qed.

Lemma canonical_section_ok (vals : values_t) :
  Forall (fun p : description_s * string => is_Some (option_value p.1 p.2)) (set_fields vals) ->
  Forall fits_long (set_fields vals) ->
  Forall section_ok (canonical vals).
Proof.
  intros Hopt Hfits. rewrite Forall_forall in Hopt, Hfits.
  apply Forall_forall. intros [name ms] Hin.
  apply canonical_elem in Hin as (i & Hname & -> & _).
  split; cbn [fst snd].
  - apply existsb_exists. exists name. split; [|apply String.eqb_refl].
    by eapply list_elem_of_In, list_elem_of_lookup_2.
  - unfold members. apply Forall_fmap, Forall_forall. intros [d s] Hp.
    apply list_elem_of_In, filter_In in Hp as [Hp Hsec].
    apply list_elem_of_In in Hp.
    unfold in_section in Hsec. cbn in Hsec. apply Nat.eqb_eq in Hsec.
    pose proof (set_fields_in_fields vals _ Hp) as Hd. cbn [fst] in Hd.
    destruct (option_entry_written (d, s) (Hopt _ Hp) (Hfits _ Hp)) as (_ & Hkind & _).
    exists d. cbn [fst snd] in *. split; [|exact Hkind].
    rewrite <- (section_name_lookup d i name Hname Hsec).
    by apply descriptor_for_field.
Qed.

(** The round trip where the wrap to [long] does not bite: a Document
    built from the options, with every numeric value at most [LONG_MAX]
    and every cpuset string valid UTF-8, is serialized by [build_file]
    and parsed back to itself. *)
Lemma round_trip_below_long_max (vals : values_t) (doc : Document) :
  length vals = n_values ->
  document_of_options vals = Some doc ->
  Forall fits_long (set_fields vals) ->
  strings_valid vals = true ->
  exists content : yajl_gen,
    build_file vals = Ret content /\ parse content = Some doc.
Proof.
  intros Hlen Hdoc Hfits Hvalid.
  apply document_of_options_inv in Hdoc as [Hopt ->].
  assert (Forall (fun p => option_entry p = entry_of p /\ out_of_range p = false)
            (set_fields vals)) as Hall.
  { rewrite Forall_forall in Hopt, Hfits. apply Forall_forall. intros p Hp.
    destruct (option_entry_written p (Hopt _ Hp) (Hfits _ Hp)) as (? & _ & ?). done. }
  exists (doc_events (canonical vals)). split.
  - rewrite build_file_spec by done.
    assert (overflows vals = false) as ->; [|done].
    unfold overflows. apply not_true_is_false. intros Hex.
    apply existsb_exists in Hex as (p & Hp & Hbad).
    rewrite Forall_forall in Hall.
    destruct (Hall p) as [_ Hgood]; [by apply list_elem_of_In|]. congruence.
  - rewrite parse_canonical by (by apply canonical_section_ok).
    rewrite insert_all_list_to_map. f_equal.
    assert (option_entry <$> set_fields vals = entry_of <$> set_fields vals) as ->.
    { apply list_fmap_ext. intros k p Hk. rewrite Forall_forall in Hall.
      destruct (Hall p) as [Heq _]; [by eapply list_elem_of_lookup_2|done]. }
    symmetry. apply list_to_map_proper; [apply entry_keys_NoDup|].
    rewrite reverse_Permutation. symmetry. apply entries_canonical_Permutation.
Qed.

(** * Further properties of the code *)

(** ** Further properties of [src/update.c] *)

(** After any members, a map that waited for a key waits for a key again. *)
Lemma accept_members (rest : list Tokens.frame) (ms : list jmember) (tail : list event) :
  foldl Tokens.accept (Some (Tokens.mk_gen_state (Tokens.ExpectKey :: rest) false))
    (flat_map member_events ms ++ tail)
  = foldl Tokens.accept (Some (Tokens.mk_gen_state (Tokens.ExpectKey :: rest) false)) tail.
Proof.
  induction ms as [|[k v] ms IH]; [reflexivity|].
  cbn [flat_map member_events fst snd app foldl].
  destruct v; cbn; exact IH.
Qed.

Lemma accept_sections (secs : jdoc) (tail : list event) :
  foldl Tokens.accept (Some (Tokens.mk_gen_state [Tokens.ExpectKey] false))
    (flat_map section_events secs ++ tail)
  = foldl Tokens.accept (Some (Tokens.mk_gen_state [Tokens.ExpectKey] false)) tail.
Proof.
  induction secs as [|[name ms] secs IH]; [reflexivity|].
  cbn [flat_map]. unfold section_events at 1. cbn [fst snd].
  rewrite <- app_assoc. cbn [app foldl].
  change (Tokens.accept (Tokens.accept (Some (Tokens.mk_gen_state [Tokens.ExpectKey] false)) (Str name)) MapOpen)
    with (Some (Tokens.mk_gen_state [Tokens.ExpectKey; Tokens.ExpectValue] false)).
  rewrite <- app_assoc, accept_members. cbn [app foldl].
  exact IH.
Qed.

Lemma doc_events_accepted (d : jdoc) : Tokens.accepted (doc_events d) = true.
Proof.
  unfold Tokens.accepted, doc_events. cbn [foldl].
  change (Tokens.accept (Some Tokens.gen_start) MapOpen)
    with (Some (Tokens.mk_gen_state [Tokens.ExpectKey] false)).
  rewrite accept_sections. reflexivity.
Qed.

(** X1. For every array of fourteen values whose cpuset strings are
    valid UTF-8, [build_file] does not dereference NULL; it ends the
    process only with [EXIT_FAILURE], when [yajl_gen_alloc] gives no
    generator or a numeric value is out of range; and otherwise it makes
    its generator calls in an order the generator accepts: one
    top-level map, every key a string followed by exactly one value,
    every map closed. *)
Theorem build_file_calls_in_order (allocated : bool) (vals : values_t) :
  length vals = n_values ->
  strings_valid vals = true ->
  match build_file_alloc allocated vals with
  | Ret evs => Tokens.accepted evs = true
  | Exit status => status = EXIT_FAILURE /\ (allocated = false \/ overflows vals = true)
  | Fault => False
  end.
Proof.
  intros Hlen Hvalid. unfold build_file_alloc.
  destruct allocated; [|split; [reflexivity|left; reflexivity]].
  rewrite (build_file_spec vals Hlen Hvalid).
  destruct (overflows vals); [split; [reflexivity|right; reflexivity]|].
  apply doc_events_accepted.
Qed.

Lemma build_file_calls_in_order_witness :
  match build_file_alloc true
          (set_value CPUSET_CPUS (Some "0-3"%string)
             (set_value MEMORY (Some "1048576"%string) values_init)) with
  | Ret evs => Tokens.accepted evs = true
  | Exit status =>
      status = EXIT_FAILURE
      /\ (true = false
          \/ overflows (set_value CPUSET_CPUS (Some "0-3"%string)
                          (set_value MEMORY (Some "1048576"%string) values_init)) = true)
  | Fault => False
  end.
Proof.
  apply build_file_calls_in_order; vm_compute; reflexivity.
Defined.

Lemma has_section_true_lookup (has : list bool) (i : nat) :
  has_section has i = true -> has !! i = Some true.
Proof.
  unfold has_section. destruct (has !! i) as [b|]; [|discriminate].
  intros ->. reflexivity.
Qed.

Lemma mark_section_marked (vals : values_t) (has0 : list bool) (j : nat) :
  length vals = n_values -> length has0 = n_sections -> (j < n_values)%nat ->
  mark_section vals (mark_sections vals n_values has0) j
  = mark_sections vals n_values has0.
Proof.
  intros Hlen Hhas Hj. unfold mark_section.
  destruct (values_at vals j) as [v|] eqn:Hv; [|reflexivity].
  destruct (descriptors !! j) as [d|] eqn:Hd; [|reflexivity].
  apply list_insert_id, has_section_true_lookup.
  destruct (zip_fields_lookup vals j Hlen Hj) as (d' & ov & Hd' & Hov & Hz).
  assert (d' = d) by congruence. subst d'.
  assert (ov = Some v) as ->.
  { unfold values_at in Hv. rewrite Hov in Hv. exact Hv. }
  assert (Hsec : (section d < n_sections)%nat).
  { pose proof fields_wf as Hwf. rewrite Forall_forall in Hwf.
    apply (Hwf d). apply (list_elem_of_lookup_2 _ j).
    unfold fields. rewrite lookup_take_lt by exact Hj. exact Hd. }
  rewrite mark_sections_spec by (try exact Hlen; try lia).
  rewrite take_ge by (rewrite zip_fields_length by exact Hlen; lia).
  apply orb_true_iff. right.
  apply existsb_exists. exists (d, Some v). split.
  - apply list_elem_of_In. apply (list_elem_of_lookup_2 _ j). exact Hz.
  - unfold set_in. cbn. apply Nat.eqb_refl.
Qed.

Lemma mark_sections_0 (vals : values_t) (has : list bool) :
  mark_sections vals 0 has = has.
Proof. reflexivity. Qed.

(** X2. The second loop of [build_file] that marks sections (it runs
    over the first [n_sections] values only) never changes
    [has_sections]: every section it would mark has been marked by the
    first loop, which runs over all values. This holds for any bound up
    to the number of values. *)
Theorem second_marking_loop_changes_nothing (vals : values_t) (has : list bool) (n : nat) :
  length vals = n_values -> length has = n_sections -> (n <= n_values)%nat ->
  mark_sections vals n (mark_sections vals n_values has)
  = mark_sections vals n_values has.
Proof.
  intros Hlen Hhas. induction n as [|n IH]; intros Hn; [apply mark_sections_0|].
  rewrite mark_sections_S.
  rewrite IH by exact (Nat.le_trans _ _ _ (Nat.le_succ_diag_r n) Hn).
  apply mark_section_marked; [exact Hlen|exact Hhas|exact Hn].
Qed.

Lemma second_marking_loop_changes_nothing_witness :
  mark_sections (set_value CPU_SHARE (Some "512"%string) values_init) n_sections
    (mark_sections (set_value CPU_SHARE (Some "512"%string) values_init) n_values
       (replicate n_sections false))
  = mark_sections (set_value CPU_SHARE (Some "512"%string) values_init) n_values
      (replicate n_sections false).
Proof.
  apply (second_marking_loop_changes_nothing
           (set_value CPU_SHARE (Some "512"%string) values_init)
           (replicate n_sections false) n_sections).
  - vm_compute; reflexivity.
  - vm_compute; reflexivity.
  - apply Nat.leb_le. vm_compute; reflexivity.
Defined.

(** [descriptors] is grouped by section, in the order of [sections]. *)
Lemma fields_sorted :
  StronglySorted (fun d d' : description_s => (section d <= section d')%nat) fields.
Proof. by apply (bool_decide_unpack _); vm_compute. Qed.

Lemma set_of_sorted (ds : list description_s) :
  StronglySorted (fun d d' : description_s => (section d <= section d')%nat) ds ->
  forall vs : list (option string), StronglySorted by_section (set_of (zip ds vs)).
Proof.
  induction 1 as [|d ds Hs IH Hd]; intros vs; [constructor|].
  destruct vs as [|v vs]; [constructor|].
  destruct v as [s|];
    [change (set_of (zip (d :: ds) (Some s :: vs))) with ((d, s) :: set_of (zip ds vs))
    |change (set_of (zip (d :: ds) (None :: vs))) with (set_of (zip ds vs)); apply IH].
  constructor; [apply IH|].
  apply Forall_forall. intros q Hq. unfold by_section. cbn [fst].
  rewrite Forall_forall in Hd. apply Hd.
  apply (elem_of_sublist (set_of (zip ds vs)).*1); [|apply set_of_fst_sublist].
  apply list_elem_of_fmap. exists q. split; [reflexivity|exact Hq].
Qed.

Lemma filter_below_nil (S : list (description_s * string)) (m i : nat) :
  Forall (fun q : description_s * string => (m <= section q.1)%nat) S ->
  (i < m)%nat ->
  List.filter (in_section i) S = [].
Proof.
  intros HS Hi. induction HS as [|q S Hq _ IH]; [reflexivity|].
  cbn [List.filter]. unfold in_section at 1.
  destruct (Nat.eqb_spec (section q.1) i) as [He|_]; [lia|exact IH].
Qed.

Lemma filter_sections_sorted (S : list (description_s * string)) :
  StronglySorted by_section S ->
  Forall (fun p : description_s * string => (section p.1 < n_sections)%nat) S ->
  flat_map (fun i => List.filter (in_section i) S) (seq 0 n_sections) = S.
Proof.
  change (seq 0 n_sections) with [0; 1; 2; 3]%nat. cbn [flat_map].
  induction 1 as [|[d v] S Hs IH Hd]; intros Hlt; [reflexivity|].
  apply Forall_cons_1 in Hlt as [Hdlt Hlt]. specialize (IH Hlt).
  unfold by_section in Hd. cbn [fst] in Hd, Hdlt.
  cbn [List.filter].
  change (in_section 0 (d, v)) with (section d =? 0)%nat.
  change (in_section 1 (d, v)) with (section d =? 1)%nat.
  change (in_section 2 (d, v)) with (section d =? 2)%nat.
  change (in_section 3 (d, v)) with (section d =? 3)%nat.
  destruct (section d) as [|[|[|[|n]]]]; cbn [Nat.eqb];
    [| | | |unfold n_sections in Hdlt; cbn in Hdlt; lia].
  - cbn [app]. f_equal. exact IH.
  - rewrite (filter_below_nil S 1 0 Hd) in * by lia. cbn [app] in *. f_equal. exact IH.
  - rewrite (filter_below_nil S 2 0 Hd), (filter_below_nil S 2 1 Hd) in * by lia.
    cbn [app] in *. f_equal. exact IH.
  - rewrite (filter_below_nil S 3 0 Hd), (filter_below_nil S 3 1 Hd),
      (filter_below_nil S 3 2 Hd) in * by lia.
    cbn [app] in *. f_equal. exact IH.
Qed.

Lemma section_doc_members (vals : values_t) (i : nat) :
  (i < n_sections)%nat ->
  match section_doc vals i with
  | Some s => s.2
  | None => []
  end = members vals i.
Proof.
  intros Hi. unfold section_doc.
  destruct (members vals i) as [|m ms]; [reflexivity|].
  destruct (lookup_lt_is_Some_2 sections i Hi) as [name ->]. reflexivity.
Qed.

Lemma canonical_members (vals : values_t) :
  flat_map snd (canonical vals) = member_of <$> set_fields vals.
Proof.
  unfold canonical. rewrite flat_map_omap.
  rewrite <- (filter_sections_sorted (set_fields vals)) at 1;
    [|apply set_of_sorted, fields_sorted|apply set_fields_sections].
  change (seq 0 n_sections) with [0; 1; 2; 3]%nat. cbn [flat_map].
  rewrite !fmap_app.
  rewrite !section_doc_members by (unfold n_sections; cbn; lia).
  reflexivity.
Qed.

Lemma set_of_length (ps : list (description_s * option string)) :
  length (set_of ps) = length (filter is_Some ps.*2).
Proof.
  induction ps as [|[d [v|]] ps IH]; [reflexivity| |].
  - change (set_of ((d, Some v) :: ps)) with ((d, v) :: set_of ps).
    cbn [fmap list_fmap snd]. rewrite filter_cons_True by (eexists; reflexivity).
    cbn [length]. f_equal. exact IH.
  - change (set_of ((d, None) :: ps)) with (set_of ps).
    cbn [fmap list_fmap snd]. rewrite filter_cons_False by (intros [x Hx]; discriminate Hx).
    exact IH.
Qed.

(** X3. When no numeric value is out of range and the cpuset strings
    are valid UTF-8, the members of all sections of the document
    [build_file] writes, read in document order, are exactly the fields
    that are set, in the order of [descriptors]: the table is grouped by
    section, so nothing is reordered, dropped or written twice, and the
    number of members is the number of cells of [values] that are not
    NULL. *)
Theorem build_file_fields_in_table_order (vals : values_t) :
  length vals = n_values ->
  overflows vals = false ->
  strings_valid vals = true ->
  exists doc : jdoc,
    build_file vals = Ret (doc_events doc)
    /\ flat_map snd doc = member_of <$> set_fields vals
    /\ length (flat_map snd doc) = length (filter is_Some vals).
Proof.
  intros Hlen Hok Hvalid. exists (canonical vals).
  rewrite (build_file_spec vals Hlen Hvalid), Hok, canonical_members.
  split; [reflexivity|]. split; [reflexivity|].
  rewrite length_fmap.
  change (set_fields vals) with (set_of (zip fields vals)).
  rewrite set_of_length, snd_zip; [reflexivity|].
  rewrite fields_length, Hlen. reflexivity.
Qed.

Lemma build_file_fields_in_table_order_witness :
  exists doc : jdoc,
    build_file [Some "10"; None; None; None; None; None; Some "0-3"; None;
                None; None; Some "1048576"; None; None; Some "64"]%string
    = Ret (doc_events doc)
    /\ flat_map snd doc
       = [("weight", JNum 10); ("cpus", JStr "0-3"); ("limit", JNum 1048576);
          ("limit", JNum 64)]%string.
Proof.
  destruct (build_file_fields_in_table_order
              [Some "10"; None; None; None; None; None; Some "0-3"; None;
               None; None; Some "1048576"; None; None; Some "64"]%string)
    as (doc & Hrun & Hms & _).
  - vm_compute; reflexivity.
  - vm_compute; reflexivity.
  - vm_compute; reflexivity.
  - exists doc. split; [exact Hrun|]. rewrite Hms. vm_compute. reflexivity.
Defined.

Lemma filter_set_of_insert (i : nat) (ds : list description_s) :
  forall (vs : list (option string)) (j : nat) (d : description_s) (x : option string),
    ds !! j = Some d -> section d <> i ->
    List.filter (in_section i) (set_of (zip ds (<[j := x]> vs)))
    = List.filter (in_section i) (set_of (zip ds vs)).
Proof.
  induction ds as [|d0 ds IH]; intros vs j d x Hd Hsec; [discriminate Hd|].
  destruct vs as [|v vs]; [reflexivity|].
  destruct j as [|j].
  - injection Hd as ->. cbn [insert list_insert].
    assert (Hdrop : forall o : option string,
              List.filter (in_section i) (set_of (zip (d :: ds) (o :: vs)))
              = List.filter (in_section i) (set_of (zip ds vs))).
    { intros [s|].
      - change (set_of (zip (d :: ds) (Some s :: vs))) with ((d, s) :: set_of (zip ds vs)).
        cbn [List.filter]. unfold in_section at 1. cbn [fst].
        destruct (Nat.eqb_spec (section d) i); [contradiction|reflexivity].
      - reflexivity. }
    rewrite !Hdrop. reflexivity.
  - cbn [insert list_insert]. cbn [lookup list_lookup] in Hd.
    specialize (IH vs j d x Hd Hsec).
    destruct v as [s|].
    + change (set_of (zip (d0 :: ds) (Some s :: <[j:=x]> vs)))
        with ((d0, s) :: set_of (zip ds (<[j:=x]> vs))).
      change (set_of (zip (d0 :: ds) (Some s :: vs)))
        with ((d0, s) :: set_of (zip ds vs)).
      cbn [List.filter]. rewrite IH. reflexivity.
    + exact IH.
Qed.

Lemma existsb_bad_in (i : nat) (S : list (description_s * string)) :
  existsb (bad_in i) S = existsb out_of_range (List.filter (in_section i) S).
Proof.
  induction S as [|p S IH]; [reflexivity|].
  cbn [existsb List.filter]. unfold bad_in at 1.
  destruct (in_section i p); cbn [andb orb existsb]; rewrite IH; reflexivity.
Qed.

(** X4. Storing a value for a key leaves the pass of [build_file]'s
    inner loop over every other section as it was: the loop for section
    [i] makes the same generator calls, or ends the process alike,
    whenever the key's descriptor belongs to a section other than [i]. *)
Theorem option_changes_only_its_section
  (key : Z) (value : option string) (vals : values_t) (d : description_s)
  (i : nat) (gen : yajl_gen) :
  length vals = n_values ->
  is_field_key key = true ->
  descriptors !! Z.to_nat (key - FIRST_VALUE) = Some d ->
  section d <> i ->
  fields_loop (seq 0 n_values) i (set_value key value vals) gen
  = fields_loop (seq 0 n_values) i vals gen.
Proof.
  intros Hlen Hkey Hd Hsec.
  assert (Hfilter : List.filter (in_section i) (set_fields (set_value key value vals))
                    = List.filter (in_section i) (set_fields vals)).
  { unfold set_value.
    change (set_fields (<[Z.to_nat (key - FIRST_VALUE):=value]> vals))
      with (set_of (zip fields (<[Z.to_nat (key - FIRST_VALUE):=value]> vals))).
    change (set_fields vals) with (set_of (zip fields vals)).
    apply (filter_set_of_insert i fields vals _ d); [|exact Hsec].
    destruct (descriptor_of_key key Hkey) as (d' & Hf & _).
    rewrite (fields_lookup_descriptors _ _ Hf) in Hd. congruence. }
  rewrite !fields_loop_spec
    by (try exact Hlen; unfold set_value; rewrite length_insert; exact Hlen).
  rewrite !existsb_bad_in. unfold members. rewrite Hfilter. reflexivity.
Qed.

Lemma option_changes_only_its_section_witness :
  fields_loop (seq 0 n_values) 1
    (set_value MEMORY (Some "5"%string)
       (set_value CPU_SHARE (Some "512"%string) values_init)) [MapOpen]
  = fields_loop (seq 0 n_values) 1
      (set_value CPU_SHARE (Some "512"%string) values_init) [MapOpen].
Proof.
  apply (option_changes_only_its_section MEMORY (Some "5"%string) _
           (mk_description MEMORY 2 (Some "limit"%string) 1) 1).
  - vm_compute; reflexivity.
  - vm_compute; reflexivity.
  - vm_compute; reflexivity.
  - discriminate.
Defined.









(** X8. What option parsing leaves in [resources] and [values]
    depends only on the last argument given for each key: two command
    lines that agree on these, whatever the order and the repetitions of
    their options, end in the same state. *)
Theorem argp_parse_last_of_each_key
  (opts opts' : list (Z * string)) (state state' : argp_state) :
  Forall (fun o : Z * string => is_option_key o.1 = true) opts ->
  Forall (fun o : Z * string => is_option_key o.1 = true) opts' ->
  (forall key : Z,
     is_option_key key = true ->
     last (supplied key opts) = last (supplied key opts')) ->
  exists g : globals,
    argp_parse (deliver opts) state globals_init = Ret g
    /\ argp_parse (deliver opts') state' globals_init = Ret g.
Proof.
  intros Hopts Hopts' Hlast.
  destruct (argp_parse_options opts state Hopts globals_init eq_refl)
    as (g1 & Hrun1 & Hlen1 & Hres1 & Hval1).
  destruct (argp_parse_options opts' state' Hopts' globals_init eq_refl)
    as (g2 & Hrun2 & Hlen2 & Hres2 & Hval2).
  exists g1. split; [exact Hrun1|]. rewrite Hrun2. f_equal.
  destruct g1 as [r1 v1], g2 as [r2 v2]. cbn [resources values] in *.
  f_equal.
  - rewrite Hres1, Hres2, (Hlast KEY_r) by reflexivity. reflexivity.
  - apply list_eq. intros i.
    destruct (decide (i < n_values)%nat) as [Hi|Hi].
    + destruct (field_key_of_index i Hi) as [Hkey Hidx].
      specialize (Hval1 _ Hkey). specialize (Hval2 _ Hkey).
      rewrite Hidx in Hval1, Hval2.
      rewrite Hval1, Hval2, (Hlast (FIRST_VALUE + Z.of_nat i)).
      * reflexivity.
      * unfold is_option_key. rewrite Hkey. reflexivity.
    + rewrite !lookup_ge_None_2 by lia. reflexivity.
Qed.

Lemma argp_parse_last_of_each_key_witness :
  exists g : globals,
    argp_parse (deliver [(MEMORY, "1"); (PIDS_LIMIT, "7"); (MEMORY, "2")]%string)
      (mk_argp_state [] 1) globals_init = Ret g
    /\ argp_parse (deliver [(MEMORY, "2"); (PIDS_LIMIT, "7")]%string)
         (mk_argp_state [] 1) globals_init = Ret g.
Proof.
  apply argp_parse_last_of_each_key.
  - repeat constructor.
  - repeat constructor.
  - intros key _. rewrite !supplied_cons. cbn [fst snd supplied omap].
    destruct (MEMORY =? key) eqn:Hm, (PIDS_LIMIT =? key) eqn:Hp; try reflexivity.
    apply Z.eqb_eq in Hm, Hp. rewrite <- Hm in Hp. discriminate Hp.
Defined.

Lemma option_key_accepted (k : Z) (a : string) (state : argp_state) (g : globals) :
  is_option_key k = true ->
  exists g' : globals, parse_opt k (Some a) state g = Ret (0, state, g').
Proof.
  unfold is_option_key. intros Hk.
  destruct (is_field_key k) eqn:Hf.
  - eexists. apply parse_opt_field. exact Hf.
  - cbn in Hk. apply Z.eqb_eq in Hk. subst k. eexists. apply parse_opt_resources.
Qed.

Lemma declared_keys :
  UpdateOptions.key <$> UpdateOptions.declared UpdateOptions.options = KEY_r :: field_keys.
Proof. reflexivity. Qed.

(** X9. The option table and the parser agree. Every entry of
    [options] before the terminator has a name, takes a mandatory
    argument and is answered with 0 by [parse_opt]; the keys [parse_opt]
    stores are exactly the keys of the table; no name and no key occurs
    twice; and there is one entry for [resources] and one per cell of
    [values]. *)
Theorem options_table_matches_parser :
  (forall o : UpdateOptions.argp_option,
     o ∈ UpdateOptions.declared UpdateOptions.options ->
     is_Some (UpdateOptions.name o) /\ is_Some (UpdateOptions.arg o)
     /\ UpdateOptions.flags o = 0
     /\ forall (a : string) (state : argp_state) (g : globals),
          exists g' : globals,
            parse_opt (UpdateOptions.key o) (Some a) state g = Ret (0, state, g'))
  /\ (forall k : Z,
        is_option_key k = true <->
        exists o : UpdateOptions.argp_option,
          o ∈ UpdateOptions.declared UpdateOptions.options /\ UpdateOptions.key o = k)
  /\ NoDup (UpdateOptions.name <$> UpdateOptions.declared UpdateOptions.options)
  /\ NoDup (UpdateOptions.key <$> UpdateOptions.declared UpdateOptions.options)
  /\ length (UpdateOptions.declared UpdateOptions.options) = S n_values.
Proof.
  assert (Hkeys : forall k : Z,
            is_option_key k = true <-> k ∈ KEY_r :: field_keys).
  { intros k. unfold is_option_key, is_field_key.
    rewrite orb_true_iff, existsb_exists, elem_of_cons, Z.eqb_eq.
    split.
    - intros [(x & Hin & Hx)|Hr]; [right|left; exact Hr].
      apply Z.eqb_eq in Hx. subst x. apply list_elem_of_In. exact Hin.
    - intros [Hr|Hin]; [right; exact Hr|left].
      exists k. split; [apply list_elem_of_In; exact Hin|apply Z.eqb_refl]. }
  assert (Hexists : forall k : Z,
            is_option_key k = true <->
            exists o : UpdateOptions.argp_option,
              o ∈ UpdateOptions.declared UpdateOptions.options /\ UpdateOptions.key o = k).
  { intros k. rewrite Hkeys, <- declared_keys, list_elem_of_fmap.
    split; intros (o & H1 & H2); exists o; split; auto. }
  split; [|split; [exact Hexists|split; [|split]]].
  - intros o Ho.
    assert (Hshape : forallb (fun o => match UpdateOptions.name o, UpdateOptions.arg o with
                                       | Some _, Some _ => UpdateOptions.flags o =? 0
                                       | _, _ => false
                                       end)
                       (UpdateOptions.declared UpdateOptions.options) = true)
      by (vm_compute; reflexivity).
    rewrite forallb_forall in Hshape.
    specialize (Hshape o (proj1 (list_elem_of_In _ _) Ho)).
    destruct (UpdateOptions.name o) as [n|]; [|discriminate Hshape].
    destruct (UpdateOptions.arg o) as [v|]; [|discriminate Hshape].
    apply Z.eqb_eq in Hshape.
    split; [eexists; reflexivity|]. split; [eexists; reflexivity|]. split; [exact Hshape|].
    intros a state g. apply option_key_accepted, Hexists. exists o. split; [exact Ho|reflexivity].
  - by apply (bool_decide_unpack _); vm_compute.
  - by apply (bool_decide_unpack _); vm_compute.
  - reflexivity.
Qed.

(** X18. The ways [crun update] can end, for options of the table and
    one container argument. It never dereferences NULL. It returns
    without an update when the context cannot be initialised; it returns
    what [libcrun_container_update_from_file] returns, for the last file
    given; or, with no file given, it returns what
    [libcrun_container_update] returns for the document [build_file]
    made, whose generator calls are in an accepted order when every
    argument of the command line is valid UTF-8. It ends the process
    only with [EXIT_FAILURE], after the context was initialised and with
    no file given. *)
Theorem update_command_outcomes
  (init : string -> Z) (upd : string -> yajl_gen -> Z) (updf : string -> string -> Z)
  (argv : list string) (opts : list (Z * string)) (first_arg : nat) (container : string) :
  Forall (fun o : Z * string => is_option_key o.1 = true) opts ->
  length argv = S first_arg ->
  argv !! first_arg = Some container ->
  match crun_command_update init upd updf argv (deliver opts) first_arg with
  | Ret (InitFailed ret) => ret = init container /\ ret < 0
  | Ret (UpdatedFromFile id file ret) =>
      id = container /\ 0 <= init container
      /\ last (supplied KEY_r opts) = Some file
      /\ ret = updf container file
  | Ret (UpdatedFromContent id content ret) =>
      id = container /\ 0 <= init container
      /\ last (supplied KEY_r opts) = None
      /\ (Forall (fun o : Z * string => utf8_valid o.2 = true) opts ->
          Tokens.accepted content = true)
      /\ ret = upd container content
  | Exit status =>
      status = EXIT_FAILURE /\ 0 <= init container
      /\ last (supplied KEY_r opts) = None
  | Fault => False
  end.
Proof.
  intros Hopts Hargs Hcontainer.
  destruct (argp_parse_options opts (mk_argp_state argv 1) Hopts globals_init eq_refl)
    as (g & Hrun & Hlen & Hres & Hvals).
  rewrite (crun_command_update_spec init upd updf argv (deliver opts) first_arg g container
             Hrun Hargs Hcontainer).
  destruct (Z.ltb_spec (init container) 0) as [Hneg|Hpos]; [split; [reflexivity|exact Hneg]|].
  rewrite Hres. cbn [resources globals_init].
  destruct (last (supplied KEY_r opts)) as [file|].
  - repeat split; try reflexivity. exact Hpos.
  - rewrite (build_file_written _ Hlen).
    destruct (overflows (values g)); cbn [obind].
    + repeat split; try reflexivity. exact Hpos.
    + split; [reflexivity|]. split; [exact Hpos|]. split; [reflexivity|].
      split; [|reflexivity].
      intros Hvalid.
      rewrite (written_canonical _ (parsed_strings_valid opts g Hvalid Hlen Hvals)).
      apply doc_events_accepted.
Qed.

Lemma update_command_outcomes_witness :
  crun_command_update (fun _ => 0) (fun _ _ => 0) (fun _ _ => 0)
    ["update"; "--pids-limit"; "99999999999999999999"; "c1"]%string
    (deliver [(PIDS_LIMIT, "99999999999999999999")]%string) 3
  = Exit EXIT_FAILURE.
Proof.
  pose proof (update_command_outcomes (fun _ => 0) (fun _ _ => 0) (fun _ _ => 0)
                ["update"; "--pids-limit"; "99999999999999999999"; "c1"]%string
                [(PIDS_LIMIT, "99999999999999999999")]%string 3 "c1"%string) as H.
  destruct (crun_command_update (fun _ => 0) (fun _ _ => 0) (fun _ _ => 0)
              ["update"; "--pids-limit"; "99999999999999999999"; "c1"]%string
              (deliver [(PIDS_LIMIT, "99999999999999999999")]%string) 3)
    as [r|status|] eqn:Hrun.
  - vm_compute in Hrun. discriminate Hrun.
  - destruct H as [-> _]; [repeat constructor|reflexivity|reflexivity|reflexivity].
  - vm_compute in Hrun. discriminate Hrun.
Defined.

(** ** Further properties of [src/spec.c] *)

(** X11. How [crun spec] ends. It never returns 0: whenever it
    returns, the value is negative and no file has changed. Whenever it
    gets as far as opening config.json, the file is written and the
    stream is then closed twice, by the call of [fclose] and by
    [cleanup_file] when the function is left, which is undefined. It
    ends the process only where [argp_parse] does, or with
    [EXIT_FAILURE] when an argument is left on the command line. *)
Theorem spec_return_value
  (crun_path_exists : filesystem -> string -> Z -> Z)
  (fopen_succeeds : filesystem -> string -> bool)
  (libcrun_container_spec : Z -> string * Z)
  (argp : argp_answer) (argc : nat) (euid : Z) (fs : filesystem) :
  match (crun_command_spec crun_path_exists fopen_succeeds libcrun_container_spec
           argp argc euid fs).2 with
  | Ret ret =>
      ret < 0
      /\ (crun_command_spec crun_path_exists fopen_succeeds libcrun_container_spec
            argp argc euid fs).1 = fs
      /\ (crun_path_exists fs config_json 0 <> 0 \/ fopen_succeeds fs config_json = false)
  | Exit status =>
      argp = ArgpExits status
      \/ (status = EXIT_FAILURE
          /\ exists first_arg : nat, argp = ArgpReturns first_arg /\ argc <> first_arg)
  | Fault =>
      crun_path_exists fs config_json 0 = 0
      /\ fopen_succeeds fs config_json = true
      /\ (crun_command_spec crun_path_exists fopen_succeeds libcrun_container_spec
            argp argc euid fs).1
         = <[config_json := (libcrun_container_spec euid).1]> fs
  end.
Proof.
  unfold crun_command_spec.
  destruct argp as [first_arg|status]; [|left; reflexivity].
  unfold crun_assert_n_args.
  destruct (Z.ltb_spec (Z.of_nat argc - Z.of_nat first_arg) 0) as [Hn|Hn].
  { right. split; [reflexivity|]. exists first_arg. split; [reflexivity|lia]. }
  destruct (Z.ltb_spec 0 (Z.of_nat argc - Z.of_nat first_arg)) as [Hp|Hp];
    cbn [andb Z.leb Z.compare].
  { right. split; [reflexivity|]. exists first_arg. split; [reflexivity|lia]. }
  destruct (Z.ltb_spec (crun_path_exists fs config_json 0) 0) as [Hneg|Hneg].
  { cbn [snd fst leave cleanup_file obind]. split; [exact Hneg|]. split; [reflexivity|].
    left. lia. }
  destruct (Z.eqb_spec (crun_path_exists fs config_json 0) 0) as [Hz|Hz]; cbn [negb].
  2:{ cbn [snd fst leave cleanup_file obind]. unfold crun_make_error.
      split; [lia|]. split; [reflexivity|]. left. exact Hz. }
  destruct (fopen_succeeds fs config_json); cbn [negb].
  2:{ cbn [snd fst leave cleanup_file obind]. unfold crun_make_error.
      split; [lia|]. split; [reflexivity|]. right. reflexivity. }
  destruct (libcrun_container_spec euid) as [text r].
  cbn [snd fst fclose leave cleanup_file obind].
  split; [exact Hz|]. split; [reflexivity|].
  unfold filesystem in *. by rewrite insert_insert_eq.
Qed.

(** X12. Once [crun spec] has opened config.json the file stays: the
    call ends in the second [fclose], whether or not
    [libcrun_container_spec] failed, and nothing removes the file. A
    second [crun spec] then returns an error and leaves the file as the
    first run left it. (Given, as for C10, that [crun_path_exists]
    never answers 0 for a path that exists.) *)
Theorem spec_written_file_blocks_retry
  (crun_path_exists : filesystem -> string -> Z -> Z)
  (fopen_succeeds : filesystem -> string -> bool)
  (libcrun_container_spec libcrun_container_spec' : Z -> string * Z)
  (argc argc' : nat) (euid euid' : Z) (fs : filesystem) :
  (forall (fs0 : filesystem) (path : string) (readonly : Z),
     is_Some (fs0 !! path) -> crun_path_exists fs0 path readonly <> 0) ->
  crun_path_exists fs config_json 0 = 0 ->
  fopen_succeeds fs config_json = true ->
  exists (fs' : filesystem) (ret' : Z),
    crun_command_spec crun_path_exists fopen_succeeds libcrun_container_spec
      (ArgpReturns argc) argc euid fs
    = (fs', Fault)
    /\ fs' !! config_json = Some (libcrun_container_spec euid).1
    /\ crun_command_spec crun_path_exists fopen_succeeds libcrun_container_spec'
         (ArgpReturns argc') argc' euid' fs'
       = (fs', Ret ret')
    /\ ret' < 0.
Proof.
  intros Hexists Hzero Hopen.
  set (fs' := <[config_json := (libcrun_container_spec euid).1]> fs : filesystem).
  assert (Hfile : fs' !! config_json = Some (libcrun_container_spec euid).1).
  { unfold fs', filesystem in *. apply lookup_insert_eq. }
  assert (Hnow : crun_path_exists fs' config_json 0 <> 0).
  { apply Hexists. rewrite Hfile. eexists. reflexivity. }
  exists fs',
         (if crun_path_exists fs' config_json 0 <? 0
          then crun_path_exists fs' config_json 0 else crun_make_error 0).
  split; [|split; [exact Hfile|split]].
  - rewrite crun_command_spec_checked, Hzero, Hopen. reflexivity.
  - rewrite crun_command_spec_checked.
    destruct (crun_path_exists fs' config_json 0 <? 0); [reflexivity|].
    apply Z.eqb_neq in Hnow. rewrite Hnow. reflexivity.
  - destruct (Z.ltb_spec (crun_path_exists fs' config_json 0) 0); [assumption|].
    unfold crun_make_error. lia.
Qed.

Lemma spec_written_file_blocks_retry_witness :
  exists (fs' : filesystem) (ret' : Z),
    crun_command_spec path_exists_by_lookup (fun _ _ => true)
      (fun _ => ("{}"%string, 0)) (ArgpReturns 1) 1 0 ∅
    = (fs', Fault)
    /\ fs' !! config_json = Some "{}"%string
    /\ crun_command_spec path_exists_by_lookup (fun _ _ => true)
         (fun _ => ("{}"%string, 0)) (ArgpReturns 1) 1 0 fs'
       = (fs', Ret ret')
    /\ ret' < 0.
Proof.
  apply (spec_written_file_blocks_retry path_exists_by_lookup (fun _ _ => true)
           (fun _ => ("{}"%string, 0)) (fun _ => ("{}"%string, 0)) 1 1 0 0 ∅).
  - intros fs0 path ro [x Hx]. unfold path_exists_by_lookup. rewrite Hx. discriminate.
  - reflexivity.
  - reflexivity.
Defined.

(** ** Further properties of [tests/init.c] *)

Import InitMain.

(** X13. The argument checks of [main]. It goes on to a command only
    for one of the sixteen command words, with [argv[2]] present when
    the command reads it, and for [check-feature] only with one of the
    three feature names. In every other case (no command word, an
    unknown one, a missing argument, an unknown feature) the process
    ends with [EXIT_FAILURE]. It never reads [argv[1]] or [argv[2]]
    beyond the end of the vector. *)
Theorem main_usage_errors (argv : list string) :
  match main_dispatch argv with
  | Ret a =>
      exists cmd : string,
        argv !! 1%nat = Some cmd /\ cmd ∈ commands
        /\ (cmd ∈ commands_with_argument -> is_Some (argv !! 2%nat))
        /\ (cmd = "check-feature"%string ->
            exists f : string, argv !! 2%nat = Some f /\ f ∈ features)
  | Exit status =>
      status = EXIT_FAILURE
      /\ (argv !! 1%nat = None
          \/ exists cmd : string,
               argv !! 1%nat = Some cmd
               /\ (cmd ∉ commands
                   \/ (cmd ∈ commands_with_argument /\ argv !! 2%nat = None)
                   \/ (cmd = "check-feature"%string
                       /\ exists f : string, argv !! 2%nat = Some f /\ f ∉ features)))
  | Fault => False
  end.
Proof.
  unfold main_dispatch, with_argument.
  destruct (argv !! 1%nat) as [cmd|] eqn:Hcmd; [|split; [reflexivity|left; reflexivity]].
  repeat match goal with
         | |- context [String.eqb cmd ?s] =>
             destruct (String.eqb_spec cmd s) as [->|?]
         end;
    try (destruct (argv !! 2%nat) as [a|] eqn:Harg);
    repeat match goal with
           | |- context [String.eqb ?x ?s] =>
               is_var x; destruct (String.eqb_spec x s) as [->|?]
           end;
    try (eexists; split; [reflexivity|]; split; [in_list|]; split;
         [intros H; first [eexists; reflexivity | not_in_list H]
         |intros H; first [discriminate H | eexists; split; [reflexivity|in_list]]]);
    try (split; [reflexivity|right; eexists; split; [reflexivity|]]).
  all: try (right; left; split; [in_list|reflexivity]).
  all: try (right; right; split; [reflexivity|]; eexists; split; [reflexivity|];
            intros H; not_in_list H).
  all: try (left; intros H; not_in_list H).
Qed.

(** The loop of [cat], from any point of the file on. *)
Lemma cat_loop_copies (fwrite : nat -> list ascii -> nat) (read_error : bool) :
  (forall (n : nat) (buf : list ascii), fwrite n buf = length buf) ->
  forall (steps : nat) (data : list ascii) (n : nat) (out : list ascii),
    (length data < steps)%nat ->
    cat_loop steps data read_error fwrite n out
    = Some (out ++ data, if read_error then Exit EXIT_FAILURE else Ret 0).
Proof.
  intros Hfull. induction steps as [|steps IH]; intros data n out Hlen; [lia|].
  cbn [cat_loop]. rewrite Hfull.
  destruct data as [|c data].
  - cbn. rewrite app_nil_r. destruct read_error; reflexivity.
  - change (take BUFSIZE (c :: data)) with (c :: take 511 data).
    cbn [length Nat.eqb]. 
    rewrite IH.
    + f_equal. f_equal. rewrite <- app_assoc. f_equal.
      change (S (length (take 511 data))) with (length (take BUFSIZE (c :: data))).
      rewrite firstn_all.
      apply (take_drop BUFSIZE (c :: data)).
    + rewrite length_drop. cbn [length] in *. unfold BUFSIZE. lia.
Qed.

(** X15. [cat] hands the file to the standard output stream: when the
    file can be opened and every [fwrite] is accepted whole, the bytes
    the stream accepts are the bytes of the file, in order, however
    they divide into buffers of 512, and what reaches the descriptor is
    what the C library gets written of them. [cat] returns 0, or ends
    the process with [EXIT_FAILURE] when reading stopped on an error,
    whatever becomes of the bytes in the stream: it also returns 0 when
    none of them is written. One step per byte and one more are
    enough. *)
Theorem cat_copies_the_file
  (fopen : string -> option stream) (fwrite : nat -> list ascii -> nat)
  (flush : list ascii -> list ascii) (file : string) (f : stream) (steps : nat) :
  fopen file = Some f ->
  (forall (n : nat) (buf : list ascii), fwrite n buf = length buf) ->
  (length (bytes f) < steps)%nat ->
  cat steps fopen fwrite file
  = Some (bytes f, if read_error f then Exit EXIT_FAILURE else Ret 0)
  /\ cat_command steps fopen fwrite flush file
     = Some (flush (bytes f), if read_error f then Exit EXIT_FAILURE else Ret 0).
Proof.
  intros Hopen Hfull Hsteps.
  assert (Hcat : cat steps fopen fwrite file
                 = Some (bytes f, if read_error f then Exit EXIT_FAILURE else Ret 0)).
  { unfold cat. rewrite Hopen.
    apply (cat_loop_copies fwrite (read_error f) Hfull steps (bytes f) 0 [] Hsteps). }
  split; [exact Hcat|]. unfold cat_command. rewrite Hcat. reflexivity.
Qed.

Lemma cat_copies_the_file_witness :
  cat 1000 (fun _ => Some (mk_stream (replicate 600 "a"%char) false))
    (fun _ buf => length buf) "f"
  = Some (replicate 600 "a"%char, Ret 0)
  /\ cat_command 1000 (fun _ => Some (mk_stream (replicate 600 "a"%char) false))
       (fun _ buf => length buf) (fun _ => []) "f"
     = Some ([], Ret 0).
Proof.
  apply (cat_copies_the_file _ _ (fun _ => []) "f"
           (mk_stream (replicate 600 "a"%char) false) 1000).
  - reflexivity.
  - reflexivity.
  - apply Nat.ltb_lt. vm_compute. reflexivity.
Defined.

(** [ls] prints one line per name. *)
Lemma ls_loop_lines (entries : list string) (readdir_error : bool) (out : list string) :
  ls_loop entries readdir_error out
  = (out ++ ((fun d_name => d_name ++ String "010" EmptyString)%string <$> entries),
     if readdir_error then Exit EXIT_FAILURE else Ret 0).
Proof.
  revert out. induction entries as [|e entries IH]; intros out.
  - cbn. rewrite app_nil_r. destruct readdir_error; reflexivity.
  - cbn [ls_loop]. rewrite IH, <- app_assoc. reflexivity.
Qed.

Lemma ls_ends (opendir : string -> option dir_stream) (path : string) :
  (ls opendir path).2 = Ret 0 \/ (ls opendir path).2 = Exit EXIT_FAILURE.
Proof.
  unfold ls. destruct (opendir path) as [dir|]; [|right; reflexivity].
  rewrite ls_loop_lines. cbn [snd]. destruct (readdir_error dir); auto.
Qed.

(** X16. The exit status of the [ls] command does not tell whether
    listing worked. When [fork] and [waitpid] succeed and the child is
    not killed, [main] returns the raw wait status, whose low eight bits
    are 0 when the child exited: the process exits with 0 also when the
    child could not open or read the directory and exited with
    [EXIT_FAILURE] (the value returned is then 256). *)
Theorem ls_status_hides_child_failure
  (o : ls_os) (opendir : string -> option dir_stream) (path : string) :
  0 < ls_fork_ret o ->
  ls_wait_error o = None ->
  ls_child_killed o = None ->
  exists ret : Z,
    ls_command o opendir path = Ret ret
    /\ exit_status ret = 0
    /\ ((ls opendir path).2 = Exit EXIT_FAILURE -> ret = 256).
Proof.
  intros Hfork Herr Hkill. unfold ls_command.
  destruct (Z.ltb_spec (ls_fork_ret o) 0) as [?|_]; [lia|].
  destruct (Z.eqb_spec (ls_fork_ret o) 0) as [?|_]; [lia|]. cbn [negb].
  rewrite Hkill, Herr.
  assert (Hloop : forall status : Z,
            wait_loop (replicate (ls_wait_interrupts o) (-1, EINTR, 0)
                       ++ [(ls_fork_ret o, 0, status)])
            = Some (ls_fork_ret o, status)).
  { intros status. apply (wait_loop_interrupted _ (ls_fork_ret o, 0, status)).
    cbn [fst snd]. destruct (Z.ltb_spec (ls_fork_ret o) 0); [lia|reflexivity]. }
  destruct (ls_ends opendir path) as [-> | ->]; cbn [wait_status];
    rewrite Hloop; destruct (Z.ltb_spec (ls_fork_ret o) 0); try lia.
  - exists 0. split; [reflexivity|]. split; [reflexivity|]. discriminate.
  - exists 256. split; [reflexivity|]. split; [reflexivity|]. reflexivity.
Qed.

Lemma ls_status_hides_child_failure_witness :
  exists ret : Z,
    ls_command (mk_ls_os 4242 1 None None) (fun _ => None) "/missing" = Ret ret
    /\ exit_status ret = 0
    /\ ret = 256.
Proof.
  destruct (ls_status_hides_child_failure (mk_ls_os 4242 1 None None)
              (fun _ => None) "/missing") as (ret & Hrun & Hstatus & Hraw).
  - reflexivity.
  - reflexivity.
  - reflexivity.
  - exists ret. split; [exact Hrun|]. split; [exact Hstatus|]. apply Hraw. reflexivity.
Defined.

(** The loop of [pause], from any number of seconds left. *)
Lemma pause_loop_sleeps (sleep : nat -> Z -> Z) :
  (forall (n : nat) (seconds : Z), 0 < seconds -> 0 <= sleep n seconds < seconds) ->
  forall (steps n : nat) (remaining slept : Z),
    0 <= remaining < Z.of_nat steps ->
    exists calls : nat,
      pause_loop steps sleep n remaining slept = Some (calls, slept + remaining)
      /\ (n <= calls)%nat /\ Z.of_nat calls <= Z.of_nat n + remaining.
Proof.
  intros Hsleep. induction steps as [|steps IH]; intros n remaining slept Hrem; [lia|].
  cbn [pause_loop].
  destruct (Z.eqb_spec remaining 0) as [->|Hne].
  - exists n. rewrite Z.add_0_r. split; [reflexivity|lia].
  - pose proof (Hsleep n remaining ltac:(lia)) as Hleft.
    destruct (IH (S n) (sleep n remaining) (slept + (remaining - sleep n remaining))
                ltac:(lia)) as (calls & Hrun & Hcalls & Hbound).
    exists calls. rewrite Hrun. split; [f_equal; f_equal; lia|lia].
Qed.

(** X17. [pause] sleeps 120 seconds in all. If every [sleep] that a
    signal cuts short has slept one second at least, the loop ends after
    at most 120 calls, and the seconds slept add up to 120. *)
Theorem pause_sleeps_two_minutes (sleep : nat -> Z -> Z) (steps : nat) :
  (forall (n : nat) (seconds : Z), 0 < seconds -> 0 <= sleep n seconds < seconds) ->
  (120 < steps)%nat ->
  exists calls : nat,
    pause steps sleep = Some (calls, 120)
    /\ (1 <= calls <= 120)%nat.
Proof.
  intros Hsleep Hsteps. unfold pause.
  destruct (pause_loop_sleeps sleep Hsleep steps 0 120 0 ltac:(lia))
    as (calls & Hrun & _ & Hbound).
  exists calls. split; [exact Hrun|]. split; [|lia].
  destruct calls as [|calls]; [|lia].
  destruct steps as [|steps]; [lia|]. cbn [pause_loop Z.eqb] in Hrun.
  pose proof (Hsleep 0%nat 120 ltac:(lia)) as Hleft.
  destruct (pause_loop_sleeps sleep Hsleep steps 1 (sleep 0%nat 120)
              (0 + (120 - sleep 0%nat 120)) ltac:(lia)) as (c & Hrun' & Hc & _).
  rewrite Hrun' in Hrun. injection Hrun as Hc0 _. lia.
Qed.

Lemma pause_sleeps_two_minutes_witness :
  exists calls : nat,
    pause 121 (fun _ seconds => if 50 <? seconds then seconds - 50 else 0)
    = Some (calls, 120)
    /\ (1 <= calls <= 120)%nat.
Proof.
  apply pause_sleeps_two_minutes.
  - intros n seconds Hpos. destruct (Z.ltb_spec 50 seconds); lia.
  - lia.
Defined.
